(** * pngshrink: the chunk reader, the libpng callbacks and the row sampler

    A shallow embedding of [copng.cpp].  The data model is LP64: [int] and
    [unsigned] are 32 bits wide, [size_t] is 64 bits wide, and every
    conversion between them is written out.  libpng and [std::ifstream] are
    external; the write side of libpng is modelled by the log of what it was
    asked to write, the read side by the events it pushes into the callbacks. *)

From Stdlib Require Import ZArith Lia Bool String Sorted.
From stdpp Require Import base list.

Local Open Scope Z_scope.

(** ** Machine integers *)

Definition INT_MIN : Z := - 2 ^ 31.
Definition INT_MAX : Z := 2 ^ 31 - 1.

(** Conversion to [int]: reduction modulo 2^32 into the signed range. *)
Definition to_int (z : Z) : Z := (z + 2 ^ 31) mod 2 ^ 32 - 2 ^ 31.

(** Conversion to [unsigned] and [png_uint_32]. *)
Definition to_unsigned (z : Z) : Z := z mod 2 ^ 32.

(** Conversion to [size_t]. *)
Definition to_size_t (z : Z) : Z := z mod 2 ^ 64.

Definition in_int (z : Z) : bool := (INT_MIN <=? z) && (z <=? INT_MAX).

(** ** Outcomes of a call

    [runtime_error] is [std::runtime_error] with its message, [out_of_range]
    is what [std::array::at] throws, [assertion_failed] is a failed [assert],
    and [undefined_behaviour] stands for an access outside the row buffer, a
    signed overflow or a division by zero.  [OutOfFuel] belongs to the model
    only: the loop was cut before it left. *)

Inductive failure : Type :=
| runtime_error (what : string)
| out_of_range
| assertion_failed
| undefined_behaviour.

Inductive outcome (A : Type) : Type :=
| Ok (a : A)
| Raise (e : failure)
| OutOfFuel.

Arguments Ok {A} a.
Arguments Raise {A} e.
Arguments OutOfFuel {A}.

Definition bind {A B : Type} (m : outcome A) (k : A -> outcome B) : outcome B :=
  match m with
  | Ok a => k a
  | Raise e => Raise e
  | OutOfFuel => OutOfFuel
  end.

Notation "x <- m ;; k" := (bind m (fun x => k))
  (at level 100, m at next level, right associativity).

(** The error kinds of the specification, by the message the code throws. *)
Definition InvalidSampleRate : failure :=
  runtime_error "Sample rate outside dimensions of image".
Definition IOReadError : failure :=
  runtime_error "There was an error reading the file".
Definition EncodeInitError : failure :=
  runtime_error "Error creating ping write info ptr".

(** ** Bytes and buffers *)

Definition byte : Type := Byte.byte.

(** [new_row[idx]] as an rvalue; [idx] is the value of an [int] expression. *)
Definition load (row : list byte) (idx : Z) : outcome byte :=
  if in_int idx && (0 <=? idx) then
    match row !! Z.to_nat idx with
    | Some b => Ok b
    | None => Raise undefined_behaviour
    end
  else Raise undefined_behaviour.

(** [new_row[idx] = b]. *)
Definition store (row : list byte) (idx : Z) (b : byte) : outcome (list byte) :=
  if in_int idx && (0 <=? idx) && (idx <? Z.of_nat (length row)) then
    Ok (<[Z.to_nat idx := b]> row)
  else Raise undefined_behaviour.

(** ** The write side of libpng, as the log of its calls *)

Record IHDR : Type := mkIHDR {
  width : Z;
  height : Z;
  bit_depth : Z;
  color_type : Z;
  interlace_type : Z;
  compression_type : Z;
  filter_type : Z
}.

Inductive written : Type :=
| WInfo (h : IHDR)
| WRow (row : list byte)
| WFlush
| WEnd.

(** [png_structp] of the writer: what reached the sink so far, and whether
    [png_create_info_struct] will find memory. *)
Record png_struct : Type := mkPng {
  sink : list written;
  has_memory : bool
}.

Definition emit (w : png_struct) (e : written) : png_struct :=
  {| sink := sink w ++ [e]; has_memory := has_memory w |}.

Definition png_write_info (w : png_struct) (h : IHDR) : png_struct := emit w (WInfo h).
Definition png_write_row (w : png_struct) (row : list byte) : png_struct := emit w (WRow row).
Definition png_write_flush (w : png_struct) : png_struct := emit w WFlush.
Definition png_write_end (w : png_struct) : png_struct := emit w WEnd.

(** What the reading [png_structp]/[png_infop] pair answers in
    [info_callback]: [png_get_IHDR], [png_get_rowbytes], [png_get_channels]. *)
Record png_info : Type := mkInfo {
  ihdr : IHDR;
  rowbytes : Z;
  nchannels : Z
}.

Module PngReadWrite.

Record userInfo : Type := mkUser {
  isDone : bool;
  png_write_ptr : png_struct;
  rowWidth : Z;
  channels : Z;
  sampleRate : Z
}.

Definition set_writer (info : userInfo) (w : png_struct) : userInfo :=
  {| isDone := isDone info; png_write_ptr := w; rowWidth := rowWidth info;
     channels := channels info; sampleRate := sampleRate info |}.

Definition info_callback (info : userInfo) (pi : png_info) : outcome userInfo :=
  let h := ihdr pi in
  if negb (has_memory (png_write_ptr info)) then Raise EncodeInitError
  else if (width h <? sampleRate info) || (height h <? sampleRate info)
  then Raise InvalidSampleRate
  else if sampleRate info =? 0 then Raise undefined_behaviour
  else
    let out :=
      {| width := width h / sampleRate info;
         height := height h / sampleRate info;
         bit_depth := bit_depth h;
         color_type := color_type h;
         interlace_type := interlace_type h;
         compression_type := compression_type h;
         filter_type := filter_type h |} in
    let w := png_write_flush (png_write_info (png_write_ptr info) out) in
    Ok {| isDone := isDone info; png_write_ptr := w;
          rowWidth := rowbytes pi; channels := nchannels pi;
          sampleRate := sampleRate info |}.

(** [for (int y = 0; y < channels; ++y) new_row[writePos+y] = new_row[i+y];]
    with [k] the number of iterations still to run. *)
Fixpoint copy_pixel (k : nat) (new_row : list byte) (writePos i y : Z)
  : outcome (list byte) :=
  match k with
  | O => Ok new_row
  | S k' =>
      if in_int y && in_int (writePos + y) && in_int (i + y) then
        b <- load new_row (i + y) ;;
        new_row' <- store new_row (writePos + y) b ;;
        copy_pixel k' new_row' writePos i (y + 1)
      else Raise undefined_behaviour
  end.

(** The sampling loop of [row_callback] from the state [(i, writePos)];
    it answers the row buffer and the final write position. *)
Fixpoint row_loop (fuel : nat) (info : userInfo) (new_row : list byte)
  (i writePos : Z) : outcome (list byte * Z) :=
  match fuel with
  | O => OutOfFuel
  | S fuel' =>
      if to_size_t i <? rowWidth info then
        new_row' <-
          (if to_size_t (to_size_t i + channels info) <? rowWidth info
           then copy_pixel (Z.to_nat (channels info)) new_row writePos i 0
           else Ok new_row) ;;
        row_loop fuel' info new_row'
          (to_int (to_size_t (to_size_t i
                     + to_size_t (sampleRate info * channels info))))
          (to_int (to_size_t (to_size_t writePos + channels info)))
      else Ok (new_row, writePos)
  end.

(** [row_callback] answers the user state and the row buffer, which it
    changes in place. *)
Definition row_callback (fuel : nat) (info : userInfo) (new_row : list byte)
  (row_num : Z) : outcome (userInfo * list byte) :=
  if rowWidth info <=? 0 then Raise assertion_failed
  else if sampleRate info =? 0 then Raise undefined_behaviour
  else if to_unsigned row_num mod sampleRate info =? 0 then
    r <- row_loop fuel info new_row 0 0 ;;
    let w := png_write_flush (png_write_row (png_write_ptr info) (fst r)) in
    Ok (set_writer info w, fst r)
  else Ok (info, new_row).

(** [end_callback] tests the user pointer it gets from
    [png_get_progressive_ptr]: [None] is the null pointer. *)
Definition end_callback (info : option userInfo) : outcome userInfo :=
  match info with
  | None => Raise (runtime_error "No info struct in end_callback")
  | Some info =>
      let w := png_write_flush (png_write_end (png_write_ptr info)) in
      Ok {| isDone := true; png_write_ptr := w; rowWidth := rowWidth info;
            channels := channels info; sampleRate := sampleRate info |}
  end.

End PngReadWrite.

Import PngReadWrite.

(** ** The decoder seen from the callbacks

    [png_process_data] is libpng's; during one call it pushes the events it
    decoded into the three callbacks, in order, and an exception thrown by a
    callback ends the processing.  The answer is the user state reached and
    how the processing ended.  The user pointer the callbacks get is the one
    [coPng] registers with [png_set_progressive_read_fn], the address of its
    [info], which is not null. *)

Inductive event : Type :=
| on_info (pi : png_info)
| on_row (new_row : list byte) (row_num : Z) (pass : Z)
| on_end.

Definition dispatch (fuel : nat) (info : userInfo) (ev : event) : outcome userInfo :=
  match ev with
  | on_info pi => info_callback info pi
  | on_row new_row row_num _ =>
      r <- row_callback fuel info new_row row_num ;; Ok (fst r)
  | on_end => end_callback (Some info)
  end.

Fixpoint png_process_data (fuel : nat) (info : userInfo) (evs : list event)
  : userInfo * outcome unit :=
  match evs with
  | [] => (info, Ok tt)
  | ev :: rest =>
      match dispatch fuel info ev with
      | Ok info' => png_process_data fuel info' rest
      | Raise e => (info, Raise e)
      | OutOfFuel => (info, OutOfFuel)
      end
  end.

(** The rows that reached the sink, oldest first. *)
Fixpoint rows_of (l : list written) : list (list byte) :=
  match l with
  | [] => []
  | WRow row :: l' => row :: rows_of l'
  | _ :: l' => rows_of l'
  end.

(** The headers that reached the sink. *)
Fixpoint headers_of (l : list written) : list IHDR :=
  match l with
  | [] => []
  | WInfo h :: l' => h :: headers_of l'
  | _ :: l' => headers_of l'
  end.

(** ** The byte source

    [std::ifstream] is external.  A stream is the list of what its next calls
    of [readsome] will answer (the bytes at hand, and whether the call leaves
    [failbit] set) together with its [failbit].  The list may hold answers a
    file stream never gives, such as bytes together with a failure: what is
    proved for every stream of the model holds for the streams of the
    library. *)

Record reply : Type := mkReply {
  got : list byte;
  fails : bool
}.

Record ifstream : Type := mkStream {
  replies : list reply;
  failbit : bool
}.

(** [readsome(s, n)]: at most [n] bytes, and the stream after the call. *)
Definition readsome (s : ifstream) (n : Z) : list byte * ifstream :=
  match replies s with
  | [] => ([], s)
  | r :: rest =>
      (take (Z.to_nat n) (got r),
       {| replies := rest; failbit := failbit s || fails r |})
  end.

Definition fail (s : ifstream) : bool := failbit s.

(** [data] written into [buf] from offset [off] on. *)
Definition blit (buf : list byte) (off : nat) (data : list byte) : list byte :=
  take off buf ++ data ++ drop (off + length data) buf.

(** ** The awaiter [Reader<bufSize>] *)

Record Reader : Type := mkReader {
  imageStream : ifstream;
  imageBuffer : list byte;
  totalRead : Z
}.

Definition await_ready (bufSize : Z) (r : Reader) : bool :=
  totalRead r =? bufSize.

(** The answer is the flag ([true]: suspend) and the reader after the call. *)
Definition await_suspend (bufSize : Z) (r : Reader) : outcome (bool * Reader) :=
  if bufSize <=? totalRead r then Raise out_of_range
  else
    let '(data, s) := readsome (imageStream r) (bufSize - totalRead r) in
    let numRead := Z.of_nat (length data) in
    let buf := blit (imageBuffer r) (Z.to_nat (totalRead r)) data in
    if numRead =? 0 then
      Ok (false, {| imageStream := s; imageBuffer := buf; totalRead := totalRead r |})
    else if fail s then Raise IOReadError
    else
      let total := to_size_t (totalRead r + numRead) in
      if bufSize <? total then Raise assertion_failed
      else
        let r' := {| imageStream := s; imageBuffer := buf; totalRead := total |} in
        if total =? bufSize then Ok (false, r') else Ok (true, r').

Definition await_resume (r : Reader) : list byte :=
  take (Z.to_nat (totalRead r)) (imageBuffer r).

Definition clear (r : Reader) : Reader :=
  {| imageStream := imageStream r; imageBuffer := imageBuffer r; totalRead := 0 |}.

(** [co_await imageReader] as the fill operation.  A reader that is ready
    does not suspend the coroutine; otherwise [await_suspend] says whether it
    suspends; then [await_resume] hands out the span.  The answer is the
    span, whether the coroutine suspends, and the reader. *)
Definition fill (bufSize : Z) (r : Reader) : outcome (list byte * bool * Reader) :=
  if await_ready bufSize r then Ok (await_resume r, false, r)
  else
    x <- await_suspend bufSize r ;;
    Ok (await_resume (snd x), fst x, snd x).

(** The test that ends the loop of [coPng] after a chunk was processed:
    [info.isDone || span.size() == 0]. *)
Definition loop_ends (info : userInfo) (span : list byte) : bool :=
  isDone info || (Z.of_nat (length span) =? 0).

(** A reader as [coPng] holds it between two calls. *)
Definition reader_ok (bufSize : Z) (r : Reader) : Prop :=
  0 <= totalRead r <= bufSize /\
  bufSize < 2 ^ 64 /\
  Z.of_nat (length (imageBuffer r)) = bufSize.

(** ** The row context and the sampling loop in numbers *)

(** A row context whose counters stay inside [int]: the row and one stride
    beyond it are below 2^31 bytes. *)
Definition ctx_ok (info : userInfo) : Prop :=
  1 <= rowWidth info /\ 1 <= channels info /\ 1 <= sampleRate info /\
  rowWidth info + sampleRate info * channels info <= 2 ^ 31.

(** The step of [i]: [sampleRate * channels] bytes. *)
Definition stride (info : userInfo) : Z := sampleRate info * channels info.

(** The number of iterations the loop runs from position [i]. *)
Definition strides_from (info : userInfo) (i : Z) : Z :=
  (rowWidth info - i + stride info - 1) / stride info.

(** The loop over a whole row leaves with an answer: it terminates and no
    access left the buffer. *)
Definition loop_safe (info : userInfo) (row : list byte) : Prop :=
  exists (fuel : nat) (r : list byte * Z), row_loop fuel info row 0 0 = Ok r.

(** The row buffer as the sampling loop leaves it. *)
Definition shrunk (fuel : nat) (info : userInfo) (row : list byte) : list byte :=
  match row_loop fuel info row 0 0 with
  | Ok r => fst r
  | _ => row
  end.

(** ** Rows and the sink *)

(** What reached the sink of the writer the user state points to. *)
Definition sunk (info : userInfo) : list written := sink (png_write_ptr info).

(** The rows the decoder pushes, each with its index. *)
Definition row_events (rows : list (Z * list byte)) : list event :=
  map (fun rb => on_row (snd rb) (fst rb) 0) rows.

(** The rows whose index is a multiple of the sample rate. *)
Definition retained (info : userInfo) (rows : list (Z * list byte))
  : list (Z * list byte) :=
  List.filter (fun rb => fst rb mod sampleRate info =? 0) rows.

(** Whether [row_callback] handed the row to the encoder: the sink holds one
    row more after the call. *)
Definition forwarded (fuel : nat) (info : userInfo) (row : list byte) (r : Z)
  : bool :=
  match row_callback fuel info row r with
  | Ok x =>
      Nat.eqb (length (rows_of (sunk (fst x))))
              (S (length (rows_of (sunk info))))
  | _ => false
  end.

(** The user state as [coPng] sets it up before the first chunk. *)
Definition initial_info (w : png_struct) (rate : Z) : userInfo :=
  {| isDone := false; png_write_ptr := w; rowWidth := 0; channels := 1;
     sampleRate := rate |}.

(** A writer that has written nothing yet. *)
Definition fresh_writer : png_struct := {| sink := []; has_memory := true |}.

(** ** The scenario of the specification: 8 by 8, one channel *)

Definition scenario_row : list byte :=
  [Byte.x00; Byte.x01; Byte.x02; Byte.x03; Byte.x04; Byte.x05; Byte.x06; Byte.x07].

Definition scenario_header : png_info :=
  {| ihdr := mkIHDR 8 8 8 0 0 0 0; rowbytes := 8; nchannels := 1 |}.

(** Rows 0 to 7, all with the same bytes. *)
Definition scenario_rows : list (Z * list byte) :=
  map (fun n => (Z.of_nat n, scenario_row)) (seq 0 8).

(** The user state once the header went through [info_callback] at sample
    rate 2. *)
Definition scenario_info : userInfo :=
  {| isDone := false;
     png_write_ptr :=
       {| sink := [WInfo (mkIHDR 4 4 8 0 0 0 0); WFlush]; has_memory := true |};
     rowWidth := 8; channels := 1; sampleRate := 2 |}.

(** ** Row contexts at the edges *)

(** A row context with positive fields whose stride is 2^32. *)
Definition wrap_info : userInfo :=
  {| isDone := false; png_write_ptr := fresh_writer;
     rowWidth := 8; channels := 4; sampleRate := 2 ^ 30 |}.

(** A row of three one-byte pixels sampled at rate 2: the pixel at [i = 2]
    ends exactly at the row width. *)
Definition exact_fit_info : userInfo :=
  {| isDone := false; png_write_ptr := fresh_writer;
     rowWidth := 3; channels := 1; sampleRate := 2 |}.

Definition exact_fit_row : list byte := [Byte.x0a; Byte.x14; Byte.x1e].

(** ** Readers and the fill contract *)

(** A buffer of four bytes, nothing read yet. *)
Definition empty_buffer : list byte := replicate 4 Byte.x00.

(** The next [readsome] reads nothing and leaves [failbit] set. *)
Definition failed_reader : Reader :=
  {| imageStream := {| replies := [{| got := []; fails := true |}];
                       failbit := false |};
     imageBuffer := empty_buffer; totalRead := 0 |}.


(** One byte is in the buffer and the next [readsome] reads two more. *)
Definition partial_reader : Reader :=
  {| imageStream := {| replies := [{| got := [Byte.x02; Byte.x03];
                                      fails := false |}];
                       failbit := false |};
     imageBuffer := [Byte.x01; Byte.x00; Byte.x00; Byte.x00]; totalRead := 1 |}.






(** ** The sink between two writes *)

(** Whether every header, row and end record of the log is followed by a
    flush; [pending] says that the record before [l] still waits for one. *)
Fixpoint synced (pending : bool) (l : list written) : bool :=
  match l with
  | [] => negb pending
  | WFlush :: l' => synced false l'
  | _ :: l' => if pending then false else synced true l'
  end.

(** A whole image as the decoder pushes it: the header, the rows, the end. *)
Definition image_events (pi : png_info) (rows : list (Z * list byte))
  : list event :=
  on_info pi :: row_events rows ++ [on_end].

(** Rows 0 to [h - 1], row [n] with the bytes [row_at n]. *)
Definition rows_upto (h : nat) (row_at : nat -> list byte)
  : list (Z * list byte) :=
  map (fun n => (Z.of_nat n, row_at n)) (seq 0 h).

(** ** The driver: [coPng] and [main]

    What [coPng] finds when it sets up: the input file ([None]: it cannot be
    opened) with the bytes the reader's array holds before anything is read
    into it, the three libpng structs, and the output file. *)

Record environment : Type := mkEnv {
  input_file : option ifstream;
  array_bytes : list byte;
  read_struct_ok : bool;
  read_info_ok : bool;
  write_struct : option png_struct;
  output_file_ok : bool
}.

(** The environment lets [coPng] reach its loop, with the stream [s] and the
    writer [w]. *)
Definition ready (e : environment) (s : ifstream) (w : png_struct) : Prop :=
  input_file e = Some s /\ read_struct_ok e = true /\
  read_info_ok e = true /\ write_struct e = Some w /\
  output_file_ok e = true.

Section Driver.

(** The reading side of libpng is a machine with states [D] that turns the
    bytes of one [png_process_data] call into the events it pushes. *)
Variable D : Type.
Variable feed : D -> list byte -> D * list event.

(** The size of the reader's array, 1024 in [coPng]. *)
Variable bufSize : Z.

(** The fuel of the sampling loops. *)
Variable fuel : nat.

(** The locals of [coPng] that live across the loop: [imageReader],
    [png_ptr] and [info] (here [user]). *)
Record frame : Type := mkFrame {
  imageReader : Reader;
  png_ptr : D;
  user : userInfo
}.

Definition with_reader (f : frame) (r : Reader) : frame :=
  {| imageReader := r; png_ptr := png_ptr f; user := user f |}.

(** The frame whose reader has the answers [rs] ahead of it and [total]
    bytes in its array [buf]. *)
Definition frame_at (rs : list reply) (failed : bool) (buf : list byte)
  (total : Z) (d : D) (u : userInfo) : frame :=
  {| imageReader :=
       {| imageStream := {| replies := rs; failbit := failed |};
          imageBuffer := buf; totalRead := total |};
     png_ptr := d; user := u |}.

(** The coroutine as [main] sees it through its handle.  [Terminated] is
    [std::terminate], reached from [unhandled_exception], with what the
    output file holds ([None]: it was never opened).  [RowCut] and [LoopCut]
    belong to the model only: the fuel of a sampling loop, or of the driver,
    ran out. *)
Inductive coroutine : Type :=
| Created (e : environment) (png0 : D) (rate : Z)
| Awaiting (f : frame)
| Done (f : frame)
| Terminated (e : failure) (output : option (list written))
| RowCut
| LoopCut.

(** The body of [coPng] up to the loop: the checks in the order of the
    source, [fopen] on the output file last. *)
Definition setup (e : environment) (png0 : D) (rate : Z) : outcome frame :=
  match input_file e with
  | None => Raise (runtime_error "Can't open file to read")
  | Some s =>
      if negb (read_struct_ok e)
      then Raise (runtime_error "Error creating png struct")
      else if negb (read_info_ok e)
      then Raise (runtime_error "Error creating ping info ptr")
      else
        match write_struct e with
        | None => Raise (runtime_error "Error creating ping write info ptr")
        | Some w =>
            if negb (output_file_ok e)
            then Raise (runtime_error "Can't open file to write")
            else
              Ok {| imageReader :=
                      {| imageStream := s; imageBuffer := array_bytes e;
                         totalRead := 0 |};
                    png_ptr := png0;
                    user := initial_info w rate |}
        end
  end.

(** [co_await imageReader] up to the decision to suspend: the flag is
    [true] when the coroutine suspends. *)
Definition co_await (f : frame) : outcome (bool * frame) :=
  if await_ready bufSize (imageReader f) then Ok (false, f)
  else
    x <- await_suspend bufSize (imageReader f) ;;
    Ok (fst x, with_reader f (snd x)).

(** The rest of an iteration, from [await_resume] on: the span goes through
    [png_process_data], then the loop ends ([true]) or the reader is cleared
    for the next iteration ([false]). *)
Definition loop_body (f : frame) : frame * outcome bool :=
  let span := await_resume (imageReader f) in
  let fed := feed (png_ptr f) span in
  let processed := png_process_data fuel (user f) (snd fed) in
  let f' := {| imageReader := imageReader f; png_ptr := fst fed;
               user := fst processed |} in
  match snd processed with
  | Ok _ =>
      if loop_ends (fst processed) span then (f', Ok true)
      else (with_reader f' (clear (imageReader f)), Ok false)
  | Raise e => (f', Raise e)
  | OutOfFuel => (f', OutOfFuel)
  end.

(** The coroutine from [await_resume] on, with [again] what it does from
    the head of the next iteration. *)
Definition finish (again : frame -> coroutine) (f : frame) : coroutine :=
  match loop_body f with
  | (f', Ok true) => Done f'
  | (f', Ok false) => again f'
  | (f', Raise e) => Terminated e (Some (sunk (user f')))
  | (_, OutOfFuel) => RowCut
  end.

(** The coroutine from the head of an iteration until it suspends, ends or
    terminates; [n] bounds the iterations run without suspending. *)
Fixpoint run (n : nat) (f : frame) : coroutine :=
  match n with
  | O => LoopCut
  | S n' =>
      match co_await f with
      | Ok (true, f') => Awaiting f'
      | Ok (false, f') => finish (run n') f'
      | Raise e => Terminated e (Some (sunk (user f)))
      | OutOfFuel => LoopCut
      end
  end.

(** [handle()]: the coroutine runs from where it is suspended. *)
Definition resume (n : nat) (c : coroutine) : coroutine :=
  match c with
  | Created e png0 rate =>
      match setup e png0 rate with
      | Ok f => run n f
      | Raise err => Terminated err None
      | OutOfFuel => LoopCut
      end
  | Awaiting f => finish (run n) f
  | Done f => Terminated undefined_behaviour (Some (sunk (user f)))
  | _ => c
  end.

(** [while (!handle.done()) handle();] with [m] bounding the resumptions. *)
Fixpoint drive (m n : nat) (c : coroutine) : coroutine :=
  match c with
  | Created _ _ _ | Awaiting _ =>
      match m with
      | O => LoopCut
      | S m' => drive m' n (resume n c)
      end
  | _ => c
  end.

(** How the process ends. *)
Inductive process : Type :=
| Exited (code : Z)
| Returned (code : Z) (f : frame)
| Aborted (e : failure) (output : option (list written))
| Unfinished.

(** [main], with [argc], the answer of [atoi(argv[3])] and the environment
    the two file names stand for. *)
Definition main (m n : nat) (argc : Z) (sampleRate : Z) (e : environment)
  (png0 : D) : process :=
  if negb (argc =? 4) then Exited (-1)
  else if sampleRate <=? 0 then Exited (-1)
  else
    match drive m n (Created e png0 (to_unsigned sampleRate)) with
    | Done f => Returned 0 f
    | Terminated err out => Aborted err out
    | _ => Unfinished
    end.

(** Whether the process got to open the output file, which truncates it. *)
Definition output_opened (p : process) : bool :=
  match p with
  | Returned _ _ => true
  | Aborted _ (Some _) => true
  | _ => false
  end.

(** One chunk through the decoder and the callbacks: the last steps of an
    iteration, on the span alone. *)
Definition chunk_through (s : ifstream) (buf : list byte) (total : Z)
  (d : D) (u : userInfo) (span : list byte)
  (next : list byte -> D -> userInfo -> coroutine) : coroutine :=
  let fed := feed d span in
  let processed := png_process_data fuel u (snd fed) in
  match snd processed with
  | Ok _ =>
      if loop_ends (fst processed) span
      then Done {| imageReader := {| imageStream := s; imageBuffer := buf;
                                     totalRead := total |};
                   png_ptr := fst fed; user := fst processed |}
      else next buf (fst fed) (fst processed)
  | Raise e => Terminated e (Some (sunk (fst processed)))
  | OutOfFuel => RowCut
  end.

(** The transcoding told over the answers of the source, one after the
    other: each answer, cut to the array, goes through the decoder once. *)
Fixpoint transcode (rs : list reply) (failed : bool) (buf : list byte)
  (d : D) (u : userInfo) : coroutine :=
  match rs with
  | [] =>
      chunk_through {| replies := []; failbit := failed |} buf 0 d u []
        (fun _ _ _ => LoopCut)
  | r :: rest =>
      let data := take (Z.to_nat bufSize) (got r) in
      let s := {| replies := rest; failbit := failed || fails r |} in
      let buf' := blit buf 0 data in
      match data with
      | [] => chunk_through s buf 0 d u [] (fun _ _ _ => LoopCut)
      | _ :: _ =>
          if failed || fails r
          then Terminated IOReadError (Some (sunk u))
          else
            chunk_through s buf' (Z.of_nat (length data)) d u data
              (transcode rest (failed || fails r))
      end
  end.

(** A run that ended with its coroutine done, seen from a source that had
    the answers [rest] after those of the run: they are still unread. *)
Definition leave (rest : list reply) (c : coroutine) : coroutine :=
  match c with
  | Done f =>
      Done (with_reader f
              {| imageStream :=
                   {| replies := replies (imageStream (imageReader f)) ++ rest;
                      failbit := failbit (imageStream (imageReader f)) |};
                 imageBuffer := imageBuffer (imageReader f);
                 totalRead := totalRead (imageReader f) |})
  | _ => c
  end.

End Driver.

Arguments mkFrame {D} _ _ _.
Arguments imageReader {D} _.
Arguments png_ptr {D} _.
Arguments user {D} _.
Arguments with_reader {D} _ _.
Arguments frame_at {D} _ _ _ _ _ _.
Arguments Created {D} _ _ _.
Arguments Awaiting {D} _.
Arguments Done {D} _.
Arguments Terminated {D} _ _.
Arguments RowCut {D}.
Arguments LoopCut {D}.
Arguments setup {D} _ _ _.
Arguments co_await {D} _ _.
Arguments loop_body {D} _ _ _.
Arguments finish {D} _ _ _ _.
Arguments run {D} _ _ _ _ _.
Arguments resume {D} _ _ _ _ _.
Arguments drive {D} _ _ _ _ _ _.
Arguments Exited {D} _.
Arguments Returned {D} _ _.
Arguments Aborted {D} _ _.
Arguments Unfinished {D}.
Arguments main {D} _ _ _ _ _ _ _ _ _.
Arguments output_opened {D} _.
Arguments chunk_through {D} _ _ _ _ _ _ _ _ _.
Arguments transcode {D} _ _ _ _ _ _ _ _.
Arguments leave {D} _ _.

(** ** Environments and a decoder to run the driver on *)

(** A 3 by 3 image of one-byte pixels. *)
Definition small_header : png_info :=
  {| ihdr := mkIHDR 3 3 8 0 0 0 0; rowbytes := 3; nchannels := 1 |}.

(** A source that answers two bytes, then nothing, then one byte more. *)
Definition halting_source : ifstream :=
  {| replies := [{| got := [Byte.x01; Byte.x02]; fails := false |};
                 {| got := []; fails := false |};
                 {| got := [Byte.x03]; fails := false |}];
     failbit := false |}.

(** Everything [coPng] sets up is at hand, with a reader array of four
    bytes. *)
Definition environment_of (s : ifstream) : environment :=
  {| input_file := Some s; array_bytes := empty_buffer;
     read_struct_ok := true; read_info_ok := true;
     write_struct := Some fresh_writer; output_file_ok := true |}.

(** A decoder without state that pushes no event. *)
Definition quiet_decoder (d : unit) (span : list byte) : unit * list event :=
  (d, []).

(** A decoder without state that sees the end of the image in every chunk
    that has bytes. *)
Definition ending_decoder (d : unit) (span : list byte) : unit * list event :=
  (d, match span with [] => [] | _ :: _ => [on_end] end).

(** * Proofs *)

(** ** Conversions that do not wrap *)

Lemma to_size_t_small (z : Z) : 0 <= z < 2 ^ 64 -> to_size_t z = z.
Proof. intros H. unfold to_size_t. now apply Z.mod_small. Qed.

Lemma to_int_small (z : Z) : INT_MIN <= z <= INT_MAX -> to_int z = z.
Proof.
  unfold to_int, INT_MIN, INT_MAX. intros H.
  rewrite Z.mod_small; lia.
Qed.

Lemma to_unsigned_small (z : Z) : 0 <= z < 2 ^ 32 -> to_unsigned z = z.
Proof. intros H. unfold to_unsigned. now apply Z.mod_small. Qed.

Lemma in_int_true (z : Z) : INT_MIN <= z <= INT_MAX -> in_int z = true.
Proof.
  intros [H1 H2]. unfold in_int.
  apply andb_true_intro. split; now apply Z.leb_le.
Qed.

Lemma int_range_nonneg (z : Z) : 0 <= z < 2 ^ 31 -> INT_MIN <= z <= INT_MAX.
Proof. unfold INT_MIN, INT_MAX. lia. Qed.

(** ** Accesses to the row buffer *)

(** An access that answers is an access inside the buffer. *)
Lemma load_in_bounds (row : list byte) (idx : Z) (b : byte) :
  load row idx = Ok b -> 0 <= idx < Z.of_nat (length row).
Proof.
  unfold load. destruct (in_int idx && (0 <=? idx)) eqn:E; [|discriminate].
  apply andb_prop in E as [_ E]. apply Z.leb_le in E.
  destruct (row !! Z.to_nat idx) eqn:L; [|discriminate]. intros _.
  apply lookup_lt_Some in L. lia.
Qed.

Lemma store_in_bounds (row row' : list byte) (idx : Z) (b : byte) :
  store row idx b = Ok row' -> 0 <= idx < Z.of_nat (length row).
Proof.
  unfold store.
  destruct (in_int idx && (0 <=? idx) && (idx <? Z.of_nat (length row))) eqn:E;
    [|discriminate].
  apply andb_prop in E as [E E2]. apply andb_prop in E as [_ E1].
  apply Z.leb_le in E1. apply Z.ltb_lt in E2. lia.
Qed.

Lemma load_ok (row : list byte) (idx : Z) :
  0 <= idx < Z.of_nat (length row) -> idx < 2 ^ 31 ->
  exists b, row !! Z.to_nat idx = Some b /\ load row idx = Ok b.
Proof.
  intros Hidx Hint.
  destruct (lookup_lt_is_Some_2 row (Z.to_nat idx)) as [b Hb]; [lia|].
  exists b. split; [exact Hb|].
  unfold load. rewrite in_int_true by (apply int_range_nonneg; lia).
  replace (0 <=? idx) with true by (symmetry; apply Z.leb_le; lia).
  simpl. now rewrite Hb.
Qed.

Lemma store_ok (row : list byte) (idx : Z) (b : byte) :
  0 <= idx < Z.of_nat (length row) -> idx < 2 ^ 31 ->
  store row idx b = Ok (<[Z.to_nat idx := b]> row).
Proof.
  intros Hidx Hint. unfold store.
  rewrite in_int_true by (apply int_range_nonneg; lia).
  replace (0 <=? idx) with true by (symmetry; apply Z.leb_le; lia).
  replace (idx <? Z.of_nat (length row)) with true
    by (symmetry; apply Z.ltb_lt; lia).
  reflexivity.
Qed.

(** ** The inner loop: one pixel *)

(** Below the read position, the copy of [k] bytes answers, keeps the length
    and touches only the [k] bytes from [writePos + y] on. *)
Lemma copy_pixel_spec (k : nat) :
  forall (row : list byte) (writePos i y : Z),
    0 <= y -> 0 <= writePos <= i ->
    i + y + Z.of_nat k <= Z.of_nat (length row) ->
    i + y + Z.of_nat k <= 2 ^ 31 ->
    exists row',
      copy_pixel k row writePos i y = Ok row' /\
      length row' = length row /\
      forall p : nat,
        Z.of_nat p < writePos + y \/ writePos + y + Z.of_nat k <= Z.of_nat p ->
        row' !! p = row !! p.
Proof.
  induction k as [|k IH]; intros row writePos i y Hy Hwp Hlen Hint.
  - exists row. simpl. auto.
  - cbn [copy_pixel].
    rewrite !in_int_true by (apply int_range_nonneg; lia). cbn [andb].
    destruct (load_ok row (i + y)) as (b & Hb & ->); [lia|lia|].
    cbn [bind]. rewrite store_ok by lia. cbn [bind].
    destruct (IH (<[Z.to_nat (writePos + y) := b]> row) writePos i (y + 1))
      as (row' & Hrun & Hl & Hout).
    + lia.
    + lia.
    + rewrite length_insert. lia.
    + lia.
    + exists row'. split; [exact Hrun|]. split.
      * now rewrite Hl, length_insert.
      * intros p Hp. rewrite Hout by lia.
        apply list_lookup_insert_ne. lia.
Qed.

(** Copying a pixel onto itself changes nothing. *)
Lemma copy_pixel_self (k : nat) :
  forall (row : list byte) (i y : Z),
    0 <= y -> 0 <= i ->
    i + y + Z.of_nat k <= Z.of_nat (length row) ->
    i + y + Z.of_nat k <= 2 ^ 31 ->
    copy_pixel k row i i y = Ok row.
Proof.
  induction k as [|k IH]; intros row i y Hy Hi Hlen Hint.
  - reflexivity.
  - cbn [copy_pixel].
    rewrite !in_int_true by (apply int_range_nonneg; lia). cbn [andb].
    destruct (load_ok row (i + y)) as (b & Hb & ->); [lia|lia|].
    cbn [bind]. rewrite store_ok by lia. cbn [bind].
    rewrite list_insert_id by exact Hb.
    apply IH; lia.
Qed.

(** ** The sampling loop *)

Section RowLoop.

Variable info : userInfo.
Hypothesis Hctx : ctx_ok info.

Local Abbreviation R := (rowWidth info).
Local Abbreviation c := (channels info).
Local Abbreviation st := (stride info).

Lemma stride_ge_channels : 1 <= c <= st.
Proof. destruct Hctx as (_ & Hc & Hs & _). unfold stride. nia. Qed.

Lemma stride_fits : R + st <= 2 ^ 31.
Proof. destruct Hctx as (_ & _ & _ & H). exact H. Qed.

Lemma strides_from_exit (i : Z) : R <= i < R + st -> strides_from info i = 0.
Proof.
  intros H. pose proof stride_ge_channels. unfold strides_from.
  apply Z.div_small. lia.
Qed.

Lemma strides_from_iter (i : Z) :
  strides_from info i = 1 + strides_from info (i + st).
Proof.
  pose proof stride_ge_channels. unfold strides_from.
  replace (R - i + st - 1) with (R - (i + st) + st - 1 + 1 * st) by lia.
  rewrite Z.div_add by lia. lia.
Qed.

Lemma strides_from_nonneg (i : Z) : i < R + st -> 0 <= strides_from info i.
Proof.
  intros H. pose proof stride_ge_channels. unfold strides_from.
  apply Z.div_pos; lia.
Qed.

Lemma strides_from_le (i : Z) : 0 <= i < R -> strides_from info i <= R - i.
Proof.
  intros H. pose proof stride_ge_channels. unfold strides_from.
  apply Z.lt_succ_r. apply Z.div_lt_upper_bound; nia.
Qed.

(** The loop leaves when [i] has reached the row width. *)
Lemma row_loop_exit (fuel : nat) (row : list byte) (i writePos : Z) :
  R <= i < R + st ->
  row_loop (S fuel) info row i writePos = Ok (row, writePos).
Proof.
  intros H. pose proof stride_fits. destruct Hctx as (HR & _).
  cbn [row_loop]. rewrite to_size_t_small by lia.
  replace (i <? R) with false by (symmetry; apply Z.ltb_ge; lia).
  reflexivity.
Qed.

(** One iteration, with no conversion that wraps. *)
Lemma row_loop_iter (fuel : nat) (row : list byte) (i writePos : Z) :
  0 <= writePos <= i -> i < R ->
  row_loop (S fuel) info row i writePos =
  (row1 <- (if i + c <? R
            then copy_pixel (Z.to_nat c) row writePos i 0
            else Ok row) ;;
   row_loop fuel info row1 (i + st) (writePos + c)).
Proof.
  intros Hwp Hi. pose proof stride_fits. pose proof stride_ge_channels.
  cbn [row_loop]. fold st.
  rewrite !(to_size_t_small i) by lia.
  replace (i <? R) with true by (symmetry; apply Z.ltb_lt; lia).
  rewrite (to_size_t_small (i + c)) by lia.
  rewrite (to_size_t_small st) by lia.
  rewrite (to_size_t_small (i + st)) by lia.
  rewrite (to_int_small (i + st)) by (apply int_range_nonneg; lia).
  rewrite (to_size_t_small writePos) by lia.
  rewrite (to_size_t_small (writePos + c)) by lia.
  rewrite (to_int_small (writePos + c)) by (apply int_range_nonneg; lia).
  reflexivity.
Qed.

(** The loop from [(i, writePos)] with [writePos <= i]: it leaves after
    [strides_from i] iterations with the cursor advanced by [c] for each of
    them; it keeps the length; it never writes below the cursor it started
    from, nor at or beyond the cursor it ends with; and when the pixel of
    the last iteration was not copied, the [c] bytes before the final
    cursor are untouched as well. *)
Lemma row_loop_run (fuel : nat) :
  forall (row : list byte) (i writePos : Z),
    Z.of_nat (length row) = R ->
    0 <= writePos <= i -> i < R + st ->
    strides_from info i < Z.of_nat fuel ->
    exists row',
      row_loop fuel info row i writePos
        = Ok (row', writePos + c * strides_from info i) /\
      length row' = length row /\
      (forall p : nat, Z.of_nat p < writePos -> row' !! p = row !! p) /\
      (forall p : nat,
          writePos + c * strides_from info i <= Z.of_nat p ->
          row' !! p = row !! p) /\
      (1 <= strides_from info i ->
       R <= i + (strides_from info i - 1) * st + c ->
       forall p : nat,
         writePos + c * (strides_from info i - 1) <= Z.of_nat p ->
         row' !! p = row !! p).
Proof.
  pose proof stride_fits as Hfit. pose proof stride_ge_channels as Hst.
  induction fuel as [|fuel IH]; intros row i writePos Hlen Hwp Hi Hfuel.
  - pose proof (strides_from_nonneg i Hi). lia.
  - destruct (Z.lt_ge_cases i R) as [Hin|Hout].
    + rewrite row_loop_iter by lia.
      assert (Hbody : exists row1,
        (if i + c <? R then copy_pixel (Z.to_nat c) row writePos i 0
         else Ok row) = Ok row1 /\
        length row1 = length row /\
        (forall p : nat,
            Z.of_nat p < writePos \/ writePos + c <= Z.of_nat p ->
            row1 !! p = row !! p) /\
        (R <= i + c -> row1 = row)).
      { destruct (i + c <? R) eqn:G.
        - apply Z.ltb_lt in G.
          destruct (copy_pixel_spec (Z.to_nat c) row writePos i 0)
            as (row1 & Hrun & Hl & Hout); try lia.
          exists row1. repeat split; [exact Hrun|exact Hl| |lia].
          intros p Hp. apply Hout. lia.
        - exists row. repeat split; auto. }
      destruct Hbody as (row1 & -> & Hl1 & Hout1 & Hskip). cbn [bind].
      rewrite (strides_from_iter i) in *.
      destruct (IH row1 (i + st) (writePos + c))
        as (row' & Hrun & Hl & Hlow & Hhigh & Hlast); try lia.
      exists row'. split; [|split; [|split; [|split]]].
      * rewrite Hrun. f_equal. f_equal. lia.
      * lia.
      * intros p Hp. rewrite Hlow by lia. apply Hout1. lia.
      * intros p Hp.
        pose proof (strides_from_nonneg (i + st) ltac:(lia)).
        rewrite Hhigh by nia. apply Hout1. nia.
      * intros _ Hnot p Hp.
        pose proof (strides_from_nonneg (i + st) ltac:(lia)) as Hn.
        destruct (Z.eq_dec (strides_from info (i + st)) 0) as [E|E].
        -- rewrite E in *.
           assert (row1 = row) as -> by (apply Hskip; lia).
           destruct (Z.lt_ge_cases (Z.of_nat p) (writePos + c)).
           ++ apply Hlow. lia.
           ++ apply Hhigh. lia.
        -- rewrite Hlast; [apply Hout1; nia|lia|lia|nia].
    + rewrite row_loop_exit by lia.
      rewrite strides_from_exit by lia.
      exists row. split; [f_equal; f_equal; lia|]. auto.
Qed.

End RowLoop.

(** ** Rows through the pipeline *)

Lemma rows_of_app (l1 l2 : list written) :
  rows_of (l1 ++ l2) = rows_of l1 ++ rows_of l2.
Proof.
  induction l1 as [|e l1 IH]; [reflexivity|].
  destruct e; simpl; now rewrite IH.
Qed.

Lemma headers_of_app (l1 l2 : list written) :
  headers_of (l1 ++ l2) = headers_of l1 ++ headers_of l2.
Proof.
  induction l1 as [|e l1 IH]; [reflexivity|].
  destruct e; simpl; now rewrite IH.
Qed.

(** The loop reads the row context only, not the writer. *)
Lemma row_loop_set_writer (fuel : nat) :
  forall (info : userInfo) (w : png_struct) (row : list byte) (i writePos : Z),
    row_loop fuel (set_writer info w) row i writePos
    = row_loop fuel info row i writePos.
Proof.
  induction fuel as [|fuel IH]; intros info w row i writePos; [reflexivity|].
  cbn [row_loop set_writer rowWidth channels sampleRate].
  destruct (to_size_t i <? rowWidth info); [|reflexivity].
  destruct (if to_size_t (to_size_t i + channels info) <? rowWidth info
            then copy_pixel (Z.to_nat (channels info)) row writePos i 0
            else Ok row); cbn [bind]; try reflexivity.
  apply (IH info w).
Qed.

Lemma shrunk_set_writer (fuel : nat) (info : userInfo) (w : png_struct)
  (row : list byte) :
  shrunk fuel (set_writer info w) row = shrunk fuel info row.
Proof. unfold shrunk. now rewrite row_loop_set_writer. Qed.

(** An answer does not depend on the fuel left over. *)
Lemma row_loop_more_fuel (fuel : nat) :
  forall (fuel' : nat) (info : userInfo) (row : list byte) (i writePos : Z)
         (r : list byte * Z),
    (fuel <= fuel')%nat ->
    row_loop fuel info row i writePos = Ok r ->
    row_loop fuel' info row i writePos = Ok r.
Proof.
  induction fuel as [|fuel IH]; intros fuel' info row i writePos r Hle Hrun;
    [discriminate|].
  destruct fuel' as [|fuel']; [lia|].
  cbn [row_loop] in *.
  destruct (to_size_t i <? rowWidth info); [|exact Hrun].
  destruct (if to_size_t (to_size_t i + channels info) <? rowWidth info
            then copy_pixel (Z.to_nat (channels info)) row writePos i 0
            else Ok row); cbn [bind] in *; try discriminate.
  apply (IH fuel'); [lia|exact Hrun].
Qed.

(** With enough fuel the loop over a whole row answers. *)
Lemma row_loop_answers (fuel : nat) (info : userInfo) (row : list byte) :
  ctx_ok info -> Z.of_nat (length row) = rowWidth info ->
  rowWidth info < Z.of_nat fuel ->
  exists row',
    row_loop fuel info row 0 0
      = Ok (row', channels info * strides_from info 0) /\
    length row' = length row.
Proof.
  intros Hctx Hlen Hfuel.
  pose proof (stride_ge_channels info Hctx) as Hst.
  pose proof (strides_from_le info Hctx 0) as Hle.
  pose proof Hctx as (HR & _).
  destruct (row_loop_run info Hctx fuel row 0 0)
    as (row' & Hrun & Hl & _); try lia.
  exists row'. split; [|exact Hl]. rewrite Hrun. f_equal.
Qed.

(** What [row_callback] does with one row. *)
Lemma row_callback_run (fuel : nat) (info : userInfo) (row : list byte) (r : Z) :
  ctx_ok info -> Z.of_nat (length row) = rowWidth info ->
  rowWidth info < Z.of_nat fuel -> 0 <= r < 2 ^ 32 ->
  row_callback fuel info row r =
  if r mod sampleRate info =? 0
  then Ok (set_writer info
             (png_write_flush
                (png_write_row (png_write_ptr info) (shrunk fuel info row))),
           shrunk fuel info row)
  else Ok (info, row).
Proof.
  intros Hctx Hlen Hfuel Hr.
  destruct (row_loop_answers fuel info row Hctx Hlen Hfuel) as (row' & Hrun & _).
  destruct Hctx as (HR & Hc & Hs & Hfit).
  unfold row_callback, shrunk.
  replace (rowWidth info <=? 0) with false by (symmetry; apply Z.leb_gt; lia).
  replace (sampleRate info =? 0) with false by (symmetry; apply Z.eqb_neq; lia).
  rewrite to_unsigned_small by exact Hr.
  destruct (r mod sampleRate info =? 0); [|reflexivity].
  rewrite Hrun. reflexivity.
Qed.

Lemma retained_sorted (info : userInfo) (rows : list (Z * list byte)) :
  StronglySorted Z.lt (map fst rows) ->
  StronglySorted Z.lt (map fst (retained info rows)).
Proof.
  induction rows as [|rb rows IH]; intros Hs; [constructor|].
  simpl in Hs. apply StronglySorted_inv in Hs as [Hs Hall].
  unfold retained. cbn [List.filter]. fold (retained info rows).
  destruct (fst rb mod sampleRate info =? 0); [|now apply IH].
  cbn [map]. constructor; [now apply IH|].
  rewrite Forall_forall in Hall. apply Forall_forall.
  intros x Hx. apply Hall.
  apply list_elem_of_In in Hx. apply list_elem_of_In.
  apply in_map_iff in Hx as (y & <- & Hy). apply in_map.
  unfold retained in Hy. apply filter_In in Hy. tauto.
Qed.

(** The decoder's rows through [row_callback], one after the other. *)
Lemma process_rows (fuel : nat) (rows : list (Z * list byte)) :
  forall info : userInfo,
    ctx_ok info -> rowWidth info < Z.of_nat fuel ->
    Forall (fun rb => 0 <= fst rb < 2 ^ 32 /\
                      Z.of_nat (length (snd rb)) = rowWidth info) rows ->
    exists info',
      png_process_data fuel info (row_events rows) = (info', Ok tt) /\
      rowWidth info' = rowWidth info /\ channels info' = channels info /\
      sampleRate info' = sampleRate info /\ isDone info' = isDone info /\
      has_memory (png_write_ptr info') = has_memory (png_write_ptr info) /\
      sunk info' = sunk info ++
        flat_map (fun rb => [WRow (shrunk fuel info (snd rb)); WFlush])
                 (retained info rows).
Proof.
  induction rows as [|rb rows IH]; intros info Hctx Hfuel Hrows.
  - exists info. simpl. rewrite app_nil_r. auto 10.
  - apply Forall_cons in Hrows as [[Hr Hlen] Hrows].
    cbn [row_events map png_process_data dispatch].
    rewrite row_callback_run by assumption.
    unfold retained. cbn [List.filter]. fold (retained info rows).
    destruct (fst rb mod sampleRate info =? 0); cbn [bind fst].
    + set (w := png_write_flush
                  (png_write_row (png_write_ptr info) (shrunk fuel info (snd rb)))).
      destruct (IH (set_writer info w)) as (info' & Hrun & HR & Hc & Hs & Hd & Hm & Hsink);
        try assumption.
      exists info'. fold (row_events rows). rewrite Hrun.
      repeat (split; [assumption || reflexivity|]).
      rewrite Hsink. unfold sunk, w. cbn. rewrite <- !app_assoc. cbn.
      f_equal. f_equal. f_equal.
      apply flat_map_ext. intros a. now rewrite shrunk_set_writer.
    + destruct (IH info) as (info' & Hrun & Hrest); try assumption.
      exists info'. fold (row_events rows). rewrite Hrun. auto.
Qed.

Lemma rows_of_flat_map {A : Type} (f : A -> list byte) (l : list A) :
  rows_of (flat_map (fun a => [WRow (f a); WFlush]) l) = map f l.
Proof. induction l as [|a l IH]; [reflexivity|]. simpl. now rewrite IH. Qed.

Lemma forwarded_iff (fuel : nat) (info : userInfo) (row : list byte) (r : Z) :
  ctx_ok info -> Z.of_nat (length row) = rowWidth info ->
  rowWidth info < Z.of_nat fuel -> 0 <= r < 2 ^ 32 ->
  forwarded fuel info row r = true <-> r mod sampleRate info = 0.
Proof.
  intros Hctx Hlen Hfuel Hr. unfold forwarded.
  rewrite row_callback_run by assumption.
  destruct (r mod sampleRate info =? 0) eqn:E; cbn [fst].
  - apply Z.eqb_eq in E. split; [intros _; exact E|intros _].
    unfold sunk. cbn. rewrite <- app_assoc, rows_of_app. cbn.
    rewrite length_app. cbn. apply Nat.eqb_eq. lia.
  - apply Z.eqb_neq in E. split; [|tauto].
    intros H. apply Nat.eqb_eq in H. lia.
Qed.

(** C2: a decoded row is handed to the encoder exactly when its index is a
    multiple of the sample rate, and the rows that reach the sink are the
    retained rows in the order the decoder pushed them, so that their
    original indices are strictly increasing. *)
Theorem rows_forwarded_iff_multiple_in_order
  (fuel : nat) (info : userInfo) (rows : list (Z * list byte)) :
  ctx_ok info -> rowWidth info < Z.of_nat fuel ->
  Forall (fun rb => 0 <= fst rb < 2 ^ 32 /\
                    Z.of_nat (length (snd rb)) = rowWidth info) rows ->
  StronglySorted Z.lt (map fst rows) ->
  (forall rb, In rb rows ->
     forwarded fuel info (snd rb) (fst rb) = true
     <-> fst rb mod sampleRate info = 0) /\
  exists info',
    png_process_data fuel info (row_events rows) = (info', Ok tt) /\
    rows_of (sunk info') =
      rows_of (sunk info)
      ++ map (fun rb => shrunk fuel info (snd rb)) (retained info rows) /\
    StronglySorted Z.lt (map fst (retained info rows)).
Proof.
  intros Hctx Hfuel Hrows Hsorted. split.
  - intros rb Hin. rewrite Forall_forall in Hrows.
    destruct (Hrows rb) as [Hr Hlen]; [now apply list_elem_of_In|].
    now apply forwarded_iff.
  - destruct (process_rows fuel rows info Hctx Hfuel Hrows)
      as (info' & Hrun & _ & _ & _ & _ & _ & Hsink).
    exists info'. split; [exact Hrun|]. split.
    + rewrite Hsink, rows_of_app. f_equal.
      apply (rows_of_flat_map (fun rb => shrunk fuel info (snd rb))).
    + now apply retained_sorted.
Qed.

(** C3: a header whose width or height is below the sample rate makes the
    processing fail with [InvalidSampleRate] at the header event; the state
    reached is the state before that event, so nothing was written, and the
    rows that follow are never processed. *)
Theorem sample_rate_beyond_dimensions_fails
  (fuel : nat) (info : userInfo) (pi : png_info) (rest : list event) :
  has_memory (png_write_ptr info) = true ->
  sampleRate info > Z.min (width (ihdr pi)) (height (ihdr pi)) ->
  png_process_data fuel info (on_info pi :: rest)
  = (info, Raise InvalidSampleRate).
Proof.
  intros Hmem Hrate.
  cbn [png_process_data dispatch]. unfold info_callback.
  rewrite Hmem. cbn [negb].
  replace ((width (ihdr pi) <? sampleRate info)
           || (height (ihdr pi) <? sampleRate info)) with true; [reflexivity|].
  symmetry. apply orb_true_iff. rewrite !Z.ltb_lt. lia.
Qed.

(** C4: when the sample rate is at least 1 and at most both dimensions, the
    header event writes a header whose width and height are the quotients of
    the input's by the sample rate, rounded down. *)
Theorem output_dimensions_floor (info : userInfo) (pi : png_info) :
  has_memory (png_write_ptr info) = true ->
  1 <= sampleRate info <= Z.min (width (ihdr pi)) (height (ihdr pi)) ->
  exists info' out,
    info_callback info pi = Ok info' /\
    sunk info' = sunk info ++ [WInfo out; WFlush] /\
    width out = width (ihdr pi) / sampleRate info /\
    height out = height (ihdr pi) / sampleRate info /\
    width out * sampleRate info <= width (ihdr pi)
      < (width out + 1) * sampleRate info /\
    height out * sampleRate info <= height (ihdr pi)
      < (height out + 1) * sampleRate info.
Proof.
  intros Hmem Hrate. unfold info_callback.
  rewrite Hmem. cbn [negb].
  replace ((width (ihdr pi) <? sampleRate info)
           || (height (ihdr pi) <? sampleRate info)) with false
    by (symmetry; apply orb_false_iff; rewrite !Z.ltb_ge; lia).
  replace (sampleRate info =? 0) with false by (symmetry; apply Z.eqb_neq; lia).
  eexists. eexists. split; [reflexivity|]. split.
  - unfold sunk. cbn. now rewrite <- app_assoc.
  - cbn [width height].
    pose proof (Z.mul_div_le (width (ihdr pi)) (sampleRate info)).
    pose proof (Z.mul_succ_div_gt (width (ihdr pi)) (sampleRate info)).
    pose proof (Z.mul_div_le (height (ihdr pi)) (sampleRate info)).
    pose proof (Z.mul_succ_div_gt (height (ihdr pi)) (sampleRate info)).
    repeat split; lia.
Qed.

(** ** Sample rate 1 *)

(** With sample rate 1 the two cursors move together and every pixel is
    copied onto itself. *)
Lemma row_loop_same_cursor (fuel : nat) :
  forall (info : userInfo) (row : list byte) (i : Z),
    ctx_ok info -> sampleRate info = 1 ->
    Z.of_nat (length row) = rowWidth info ->
    0 <= i < rowWidth info + stride info ->
    strides_from info i < Z.of_nat fuel ->
    row_loop fuel info row i i
    = Ok (row, i + channels info * strides_from info i).
Proof.
  induction fuel as [|fuel IH]; intros info row i Hctx Hone Hlen Hi Hfuel.
  - pose proof (strides_from_nonneg info Hctx i). lia.
  - pose proof (stride_fits info Hctx) as Hfit.
    pose proof Hctx as (HR & Hc & _).
    assert (Hst : stride info = channels info) by (unfold stride; lia).
    destruct (Z.lt_ge_cases i (rowWidth info)) as [Hin|Hout].
    + rewrite row_loop_iter by (assumption || lia).
      assert ((if i + channels info <? rowWidth info
               then copy_pixel (Z.to_nat (channels info)) row i i 0
               else Ok row) = Ok row) as ->.
      { destruct (i + channels info <? rowWidth info) eqn:G; [|reflexivity].
        apply Z.ltb_lt in G. apply copy_pixel_self; lia. }
      cbn [bind]. rewrite Hst.
      replace (i + channels info) with (i + stride info) by lia.
      rewrite IH; try assumption; try lia.
      * rewrite (strides_from_iter info Hctx i). f_equal. f_equal. lia.
      * rewrite (strides_from_iter info Hctx i) in Hfuel. lia.
    + rewrite row_loop_exit by (assumption || lia).
      rewrite strides_from_exit by (assumption || lia).
      f_equal. f_equal. lia.
Qed.

Lemma shrunk_sample_rate_one (fuel : nat) (info : userInfo) (row : list byte) :
  ctx_ok info -> sampleRate info = 1 ->
  Z.of_nat (length row) = rowWidth info ->
  rowWidth info < Z.of_nat fuel ->
  shrunk fuel info row = row.
Proof.
  intros Hctx Hone Hlen Hfuel. unfold shrunk.
  pose proof (stride_ge_channels info Hctx).
  pose proof (strides_from_le info Hctx 0).
  pose proof Hctx as (HR & _).
  rewrite row_loop_same_cursor by (assumption || lia).
  reflexivity.
Qed.

Lemma retained_sample_rate_one (info : userInfo) (rows : list (Z * list byte)) :
  sampleRate info = 1 -> retained info rows = rows.
Proof.
  intros Hone. unfold retained. rewrite Hone.
  induction rows as [|rb rows IH]; [reflexivity|].
  cbn [List.filter]. rewrite Z.mod_1_r. cbn. now rewrite IH.
Qed.

Lemma png_process_data_app (fuel : nat) (l1 l2 : list event) :
  forall info : userInfo,
    png_process_data fuel info (l1 ++ l2) =
    match png_process_data fuel info l1 with
    | (info', Ok _) => png_process_data fuel info' l2
    | stopped => stopped
    end.
Proof.
  induction l1 as [|ev l1 IH]; intros info; [reflexivity|].
  cbn [app png_process_data].
  destruct (dispatch fuel info ev); [apply IH|reflexivity|reflexivity].
Qed.

Lemma info_callback_sample_rate_one (info : userInfo) (pi : png_info) :
  sampleRate info = 1 ->
  has_memory (png_write_ptr info) = true ->
  1 <= width (ihdr pi) -> 1 <= height (ihdr pi) ->
  info_callback info pi =
  Ok {| isDone := isDone info;
        png_write_ptr :=
          png_write_flush (png_write_info (png_write_ptr info) (ihdr pi));
        rowWidth := rowbytes pi; channels := nchannels pi; sampleRate := 1 |}.
Proof.
  intros Hone Hmem Hw Hh. unfold info_callback.
  rewrite Hmem, Hone. cbn [negb].
  replace ((width (ihdr pi) <? 1) || (height (ihdr pi) <? 1)) with false
    by (symmetry; apply orb_false_iff; rewrite !Z.ltb_ge; lia).
  cbn [Z.eqb]. rewrite !Z.div_1_r.
  destruct (ihdr pi). reflexivity.
Qed.

Lemma forwarded_rows_unchanged (fuel : nat) (info : userInfo)
  (rows : list (Z * list byte)) :
  ctx_ok info -> sampleRate info = 1 -> rowWidth info < Z.of_nat fuel ->
  Forall (fun rb => 0 <= fst rb < 2 ^ 32 /\
                    Z.of_nat (length (snd rb)) = rowWidth info) rows ->
  flat_map (fun rb => [WRow (shrunk fuel info (snd rb)); WFlush]) rows
  = flat_map (fun rb => [WRow (snd rb); WFlush]) rows.
Proof.
  intros Hctx Hone Hfuel Hrows.
  induction rows as [|rb rows IH]; [reflexivity|].
  apply Forall_cons in Hrows as [[_ Hlen] Hrows].
  cbn [flat_map]. rewrite IH by exact Hrows.
  now rewrite shrunk_sample_rate_one.
Qed.

(** C8: with sample rate 1 the header written is the header read, every
    decoded row is forwarded, and each forwarded row is the decoded row,
    byte for byte and in the decoder's order. *)
Theorem sample_rate_one_is_identity
  (fuel : nat) (info : userInfo) (pi : png_info) (rows : list (Z * list byte)) :
  sampleRate info = 1 ->
  has_memory (png_write_ptr info) = true ->
  1 <= width (ihdr pi) -> 1 <= height (ihdr pi) ->
  1 <= rowbytes pi -> 1 <= nchannels pi ->
  rowbytes pi + nchannels pi <= 2 ^ 31 ->
  rowbytes pi < Z.of_nat fuel ->
  Forall (fun rb => 0 <= fst rb < 2 ^ 32 /\
                    Z.of_nat (length (snd rb)) = rowbytes pi) rows ->
  exists info',
    png_process_data fuel info (on_info pi :: row_events rows ++ [on_end])
    = (info', Ok tt) /\
    isDone info' = true /\
    sunk info' =
      sunk info ++ [WInfo (ihdr pi); WFlush]
      ++ flat_map (fun rb => [WRow (snd rb); WFlush]) rows
      ++ [WEnd; WFlush].
Proof.
  intros Hone Hmem Hw Hh HR Hc Hfit Hfuel Hrows.
  cbn [png_process_data dispatch].
  rewrite info_callback_sample_rate_one by assumption.
  match goal with
  | |- context [png_process_data fuel ?i (row_events rows ++ _)] =>
      remember i as info1 eqn:E1
  end.
  assert (HR1 : rowWidth info1 = rowbytes pi) by (now subst info1).
  assert (Hs1 : sampleRate info1 = 1) by (now subst info1).
  assert (Hctx : ctx_ok info1) by (subst info1; unfold ctx_ok; cbn; lia).
  rewrite <- HR1 in Hfuel, Hrows.
  destruct (process_rows fuel rows info1 Hctx Hfuel Hrows)
    as (info2 & Hrun & _ & _ & _ & _ & _ & Hsink).
  rewrite png_process_data_app, Hrun.
  cbn [png_process_data dispatch end_callback].
  eexists. split; [reflexivity|]. split; [reflexivity|].
  unfold sunk in *. cbn [png_write_ptr png_write_flush png_write_end emit sink].
  rewrite Hsink, retained_sample_rate_one by exact Hs1.
  rewrite forwarded_rows_unchanged by assumption.
  subst info1. cbn [png_write_ptr png_write_flush png_write_info emit sink].
  repeat rewrite <- app_assoc. reflexivity.
Qed.

(** ** The 8 by 8 scenario at sample rate 2 *)

(** C7: in the 8 by 8, one channel, sample rate 2 scenario the header written
    is 4 by 4, the rows forwarded are rows 0, 2, 4 and 6, and each of them
    leaves the loop with the write position at 4 and the bytes 0, 2, 4, 6 at
    the start of its buffer. *)
Theorem scenario_8x8_rate_2 :
  info_callback (initial_info fresh_writer 2) scenario_header = Ok scenario_info /\
  List.filter (forwarded 9 scenario_info scenario_row) (map Z.of_nat (seq 0 8))
    = [0; 2; 4; 6] /\
  row_loop 9 scenario_info scenario_row 0 0
    = Ok ([Byte.x00; Byte.x02; Byte.x04; Byte.x06;
           Byte.x04; Byte.x05; Byte.x06; Byte.x07], 4) /\
  let done :=
    png_process_data 9 (initial_info fresh_writer 2)
      (on_info scenario_header :: row_events scenario_rows ++ [on_end]) in
  snd done = Ok tt /\
  headers_of (sunk (fst done)) = [mkIHDR 4 4 8 0 0 0 0] /\
  map (take 4) (rows_of (sunk (fst done)))
    = replicate 4 [Byte.x00; Byte.x02; Byte.x04; Byte.x06].
Proof. repeat split; vm_compute; reflexivity. Qed.

(** ** The last stride of a row *)

(** C9: the write cursor advances by the channel count in every iteration,
    copied pixel or not, so the loop ends with the cursor at the number of
    strides (the row width over the stride, rounded up) times the channel
    count; and when the pixel of the last stride is not copied, the channel
    count bytes below the final cursor are the bytes the buffer held there
    before the loop. *)
Theorem cursor_advances_past_dropped_pixel
  (fuel : nat) (info : userInfo) (row : list byte) :
  ctx_ok info ->
  Z.of_nat (length row) = rowWidth info ->
  rowWidth info < Z.of_nat fuel ->
  let n := strides_from info 0 in
  (n - 1) * stride info < rowWidth info <= n * stride info /\
  exists row',
    row_loop fuel info row 0 0 = Ok (row', n * channels info) /\
    (rowWidth info <= (n - 1) * stride info + channels info ->
     forall y : Z,
       0 <= y < channels info ->
       row' !! Z.to_nat (n * channels info - channels info + y)
       = row !! Z.to_nat (n * channels info - channels info + y)).
Proof.
  intros Hctx Hlen Hfuel n.
  pose proof (stride_ge_channels info Hctx) as Hst.
  pose proof (strides_from_le info Hctx 0) as Hle.
  pose proof Hctx as (HR & _).
  assert (Hceil : (n - 1) * stride info < rowWidth info <= n * stride info).
  { subst n. unfold strides_from. rewrite Z.sub_0_r.
    pose proof (Z.mul_div_le (rowWidth info + stride info - 1) (stride info)).
    pose proof (Z.mul_succ_div_gt (rowWidth info + stride info - 1) (stride info)).
    lia. }
  split; [exact Hceil|].
  destruct (row_loop_run info Hctx fuel row 0 0)
    as (row' & Hrun & _ & _ & _ & Hlast); try lia.
  fold n in Hrun, Hlast.
  exists row'. split.
  - rewrite Hrun. f_equal. f_equal. lia.
  - intros Hdrop y Hy. apply Hlast; nia.
Qed.

(** ** Termination and bounds of the sampling loop *)

(** C10 as stated, at [wrap_info]: positive width, channel count and sample
    rate do not suffice.  With a stride of 2^32 bytes the [int] counter [i]
    stays at 0 while [writePos] advances past it, and the third iteration
    writes at index 8 of an 8-byte row. *)
Lemma row_loop_wraps_out_of_bounds :
  1 <= rowWidth wrap_info /\ 1 <= channels wrap_info /\
  1 <= sampleRate wrap_info /\
  Z.of_nat (length scenario_row) = rowWidth wrap_info /\
  row_loop 3 wrap_info scenario_row 0 0 = Raise undefined_behaviour /\
  ~ loop_safe wrap_info scenario_row.
Proof.
  split; [cbn; lia|]. split; [cbn; lia|]. split; [cbn; lia|].
  split; [reflexivity|]. split; [vm_compute; reflexivity|].
  intros (fuel & r & H).
  destruct fuel as [|[|[|fuel]]]; vm_compute in H; discriminate.
Qed.

(** C10 (amended): when the row and one stride beyond it stay below 2^31
    bytes, the loop over a row of [rowWidth] bytes terminates and none of its
    reads and writes leaves the buffer; the answer is the same for every fuel
    above the row width. *)
Theorem row_loop_terminates_in_bounds (info : userInfo) (row : list byte) :
  ctx_ok info ->
  Z.of_nat (length row) = rowWidth info ->
  loop_safe info row /\
  exists (row' : list byte) (writePos : Z),
    length row' = length row /\
    forall fuel : nat,
      rowWidth info < Z.of_nat fuel ->
      row_loop fuel info row 0 0 = Ok (row', writePos).
Proof.
  intros Hctx Hlen.
  pose proof Hctx as (HR & _).
  set (fuel0 := S (Z.to_nat (rowWidth info))).
  destruct (row_loop_answers fuel0 info row Hctx Hlen) as (row' & Hrun & Hl);
    [subst fuel0; lia|].
  split; [exists fuel0; eexists; exact Hrun|].
  exists row', (channels info * strides_from info 0). split; [exact Hl|].
  intros fuel Hfuel.
  apply (row_loop_more_fuel fuel0); [subst fuel0; lia|exact Hrun].
Qed.

(** ** A trailing pixel that fits exactly *)

(** C1 (the code at the failing input): the pixel at [i = 2] of a 3-byte row
    fits exactly, [2 + channels = rowWidth], yet the guard
    [i + channels < rowWidth] skips it: the loop leaves the buffer as it was,
    with the old byte at write position 1 and not the byte of that pixel. *)
Theorem exact_fit_trailing_pixel_dropped :
  2 + channels exact_fit_info = rowWidth exact_fit_info /\
  row_loop 3 exact_fit_info exact_fit_row 0 0 = Ok (exact_fit_row, 2) /\
  exact_fit_row !! 1%nat = Some Byte.x14 /\
  exact_fit_row !! 2%nat = Some Byte.x1e /\
  row_callback 3 exact_fit_info exact_fit_row 0
  = Ok (set_writer exact_fit_info
          {| sink := [WRow exact_fit_row; WFlush]; has_memory := true |},
        exact_fit_row).
Proof. repeat (split; [reflexivity|]). reflexivity. Qed.

(** ** The fill operation of the chunk reader *)

(** C5 (the code at the failing input): when the source reports a read error
    and no byte, [await_suspend] tests the byte count first and answers as at
    the end of the file; the fill hands an empty span and [false] to the
    driver, nothing is thrown, and the loop of [coPng] ends as it does at
    the end of the stream. *)
Theorem read_error_reported_as_end_of_stream :
  fst (readsome (imageStream failed_reader) 4) = [] /\
  fail (snd (readsome (imageStream failed_reader) 4)) = true /\
  await_suspend 4 failed_reader
  = Ok (false, {| imageStream := {| replies := []; failbit := true |};
                  imageBuffer := empty_buffer; totalRead := 0 |}) /\
  fill 4 failed_reader
  = Ok ([], false, {| imageStream := {| replies := []; failbit := true |};
                      imageBuffer := empty_buffer; totalRead := 0 |}) /\
  loop_ends (initial_info fresh_writer 1) [] = true.
Proof. repeat (split; [reflexivity|]). reflexivity. Qed.


Lemma readsome_length (s : ifstream) (n : Z) :
  0 <= n -> Z.of_nat (length (fst (readsome s n))) <= n.
Proof.
  intros Hn. unfold readsome. destruct (replies s); cbn [fst length]; [lia|].
  rewrite length_take. lia.
Qed.

Lemma blit_nil (buf : list byte) (off : nat) : blit buf off [] = buf.
Proof. unfold blit. cbn. rewrite Nat.add_0_r. apply take_drop. Qed.

Lemma take_blit (buf : list byte) (off : nat) (data : list byte) :
  (off <= length buf)%nat ->
  take (off + length data) (blit buf off data) = take off buf ++ data.
Proof.
  intros H. unfold blit. rewrite app_assoc. apply take_app_length'.
  rewrite length_app, length_take_le by lia. reflexivity.
Qed.


(** ** The theorems at concrete inputs *)

(** The eight rows of the scenario through [row_callback] at sample rate 2. *)
Lemma rows_forwarded_iff_multiple_in_order_witness :
  ctx_ok scenario_info /\
  rowWidth scenario_info < Z.of_nat 9 /\
  Forall (fun rb => 0 <= fst rb < 2 ^ 32 /\
                    Z.of_nat (length (snd rb)) = rowWidth scenario_info)
         scenario_rows /\
  StronglySorted Z.lt (map fst scenario_rows) /\
  ((forall rb, In rb scenario_rows ->
      forwarded 9 scenario_info (snd rb) (fst rb) = true
      <-> fst rb mod sampleRate scenario_info = 0) /\
   exists info',
     png_process_data 9 scenario_info (row_events scenario_rows)
     = (info', Ok tt) /\
     rows_of (sunk info') =
       rows_of (sunk scenario_info)
       ++ map (fun rb => shrunk 9 scenario_info (snd rb))
              (retained scenario_info scenario_rows) /\
     StronglySorted Z.lt (map fst (retained scenario_info scenario_rows))).
Proof.
  assert (H1 : ctx_ok scenario_info) by (unfold ctx_ok; cbn; lia).
  assert (H2 : rowWidth scenario_info < Z.of_nat 9) by (cbn; lia).
  assert (H3 : Forall (fun rb => 0 <= fst rb < 2 ^ 32 /\
                         Z.of_nat (length (snd rb)) = rowWidth scenario_info)
                      scenario_rows)
    by (repeat constructor; cbn; lia).
  assert (H4 : StronglySorted Z.lt (map fst scenario_rows))
    by (cbn; repeat constructor; lia).
  split; [exact H1|]. split; [exact H2|]. split; [exact H3|].
  split; [exact H4|].
  exact (rows_forwarded_iff_multiple_in_order 9 scenario_info scenario_rows
           H1 H2 H3 H4).
Defined.

(** The 8 by 8 scenario at sample rate 9. *)
Lemma sample_rate_beyond_dimensions_fails_witness :
  has_memory (png_write_ptr (initial_info fresh_writer 9)) = true /\
  sampleRate (initial_info fresh_writer 9)
    > Z.min (width (ihdr scenario_header)) (height (ihdr scenario_header)) /\
  png_process_data 9 (initial_info fresh_writer 9)
    (on_info scenario_header :: row_events scenario_rows ++ [on_end])
  = (initial_info fresh_writer 9, Raise InvalidSampleRate).
Proof.
  split; [reflexivity|]. split; [cbn; lia|].
  apply sample_rate_beyond_dimensions_fails; [reflexivity|cbn; lia].
Defined.

(** The 8 by 8 scenario at sample rate 3: the header written is 2 by 2. *)
Lemma output_dimensions_floor_witness :
  has_memory (png_write_ptr (initial_info fresh_writer 3)) = true /\
  1 <= sampleRate (initial_info fresh_writer 3)
    <= Z.min (width (ihdr scenario_header)) (height (ihdr scenario_header)) /\
  exists info' out,
    info_callback (initial_info fresh_writer 3) scenario_header = Ok info' /\
    sunk info' = sunk (initial_info fresh_writer 3) ++ [WInfo out; WFlush] /\
    width out = 8 / 3 /\ height out = 8 / 3 /\
    width out * 3 <= 8 < (width out + 1) * 3 /\
    height out * 3 <= 8 < (height out + 1) * 3.
Proof.
  split; [reflexivity|]. split; [cbn; lia|].
  apply (output_dimensions_floor (initial_info fresh_writer 3) scenario_header);
    [reflexivity|cbn; lia].
Defined.

(** The 8 by 8 scenario at sample rate 1. *)
Lemma sample_rate_one_is_identity_witness :
  exists info',
    png_process_data 9 (initial_info fresh_writer 1)
      (on_info scenario_header :: row_events scenario_rows ++ [on_end])
    = (info', Ok tt) /\
    isDone info' = true /\
    sunk info' =
      sunk (initial_info fresh_writer 1)
      ++ [WInfo (ihdr scenario_header); WFlush]
      ++ flat_map (fun rb => [WRow (snd rb); WFlush]) scenario_rows
      ++ [WEnd; WFlush].
Proof.
  apply (sample_rate_one_is_identity 9 (initial_info fresh_writer 1)
           scenario_header scenario_rows).
  - reflexivity.
  - reflexivity.
  - cbn; lia.
  - cbn; lia.
  - cbn; lia.
  - cbn; lia.
  - cbn; lia.
  - cbn; lia.
  - repeat constructor; cbn; lia.
Defined.

(** The 3-byte row at sample rate 2, whose last pixel is not copied. *)
Lemma cursor_advances_past_dropped_pixel_witness :
  ctx_ok exact_fit_info /\
  Z.of_nat (length exact_fit_row) = rowWidth exact_fit_info /\
  rowWidth exact_fit_info < Z.of_nat 4 /\
  let n := strides_from exact_fit_info 0 in
  (n - 1) * stride exact_fit_info < rowWidth exact_fit_info
    <= n * stride exact_fit_info /\
  exists row',
    row_loop 4 exact_fit_info exact_fit_row 0 0
    = Ok (row', n * channels exact_fit_info) /\
    (rowWidth exact_fit_info
       <= (n - 1) * stride exact_fit_info + channels exact_fit_info ->
     forall y : Z,
       0 <= y < channels exact_fit_info ->
       row' !! Z.to_nat (n * channels exact_fit_info
                         - channels exact_fit_info + y)
       = exact_fit_row !! Z.to_nat (n * channels exact_fit_info
                                    - channels exact_fit_info + y)).
Proof.
  assert (H1 : ctx_ok exact_fit_info) by (unfold ctx_ok; cbn; lia).
  split; [exact H1|]. split; [reflexivity|]. split; [cbn; lia|].
  apply (cursor_advances_past_dropped_pixel 4 exact_fit_info exact_fit_row);
    [exact H1|reflexivity|cbn; lia].
Defined.

(** A row of the 8 by 8 scenario at sample rate 2. *)
Lemma row_loop_terminates_in_bounds_witness :
  ctx_ok scenario_info /\
  Z.of_nat (length scenario_row) = rowWidth scenario_info /\
  loop_safe scenario_info scenario_row /\
  exists (row' : list byte) (writePos : Z),
    length row' = length scenario_row /\
    forall fuel : nat,
      rowWidth scenario_info < Z.of_nat fuel ->
      row_loop fuel scenario_info scenario_row 0 0 = Ok (row', writePos).
Proof.
  assert (H1 : ctx_ok scenario_info) by (unfold ctx_ok; cbn; lia).
  split; [exact H1|]. split; [reflexivity|].
  apply (row_loop_terminates_in_bounds scenario_info scenario_row);
    [exact H1|reflexivity].
Defined.


(** * Further properties of the code *)

(** ** What the sampling loop leaves in the buffer *)

(** The copy of [k] bytes from [i + y] to [writePos + y], the write position
    not beyond the read position: the bytes arrive, the others stay. *)
Lemma copy_pixel_copies (k : nat) :
  forall (row : list byte) (writePos i y : Z),
    0 <= y -> 0 <= writePos <= i ->
    i + y + Z.of_nat k <= Z.of_nat (length row) ->
    i + y + Z.of_nat k <= 2 ^ 31 ->
    exists row',
      copy_pixel k row writePos i y = Ok row' /\
      length row' = length row /\
      (forall p : nat,
          Z.of_nat p < writePos + y \/ writePos + y + Z.of_nat k <= Z.of_nat p ->
          row' !! p = row !! p) /\
      (forall j : Z,
          0 <= j < Z.of_nat k ->
          row' !! Z.to_nat (writePos + y + j) = row !! Z.to_nat (i + y + j)).
Proof.
  induction k as [|k IH]; intros row writePos i y Hy Hwp Hlen Hint.
  - exists row. simpl. repeat split; auto. intros j Hj. lia.
  - cbn [copy_pixel].
    rewrite !in_int_true by (apply int_range_nonneg; lia). cbn [andb].
    destruct (load_ok row (i + y)) as (b & Hb & ->); [lia|lia|].
    cbn [bind]. rewrite store_ok by lia. cbn [bind].
    destruct (IH (<[Z.to_nat (writePos + y) := b]> row) writePos i (y + 1))
      as (row' & Hrun & Hl & Hout & Hin);
      [lia|lia|rewrite length_insert; lia|lia|].
    exists row'. split; [exact Hrun|]. split; [|split].
    + now rewrite Hl, length_insert.
    + intros p Hp. rewrite Hout by lia.
      apply list_lookup_insert_ne. lia.
    + intros j Hj. destruct (Z.eq_dec j 0) as [->|Hne].
      * rewrite !Z.add_0_r.
        rewrite Hout by lia.
        rewrite list_lookup_insert_eq by lia. now rewrite Hb.
      * replace (writePos + y + j) with (writePos + (y + 1) + (j - 1)) by lia.
        rewrite Hin by lia.
        replace (i + (y + 1) + (j - 1)) with (i + y + j) by lia.
        apply list_lookup_insert_ne. lia.
Qed.

Section RowSampling.

Variable info : userInfo.
Hypothesis Hctx : ctx_ok info.

Local Abbreviation R := (rowWidth info).
Local Abbreviation c := (channels info).
Local Abbreviation st := (stride info).

(** From [(i, writePos)] on, the [j]-th pixel the loop reaches is copied to
    the [j]-th write position whenever the guard lets it through. *)
Lemma row_loop_samples (fuel : nat) :
  forall (row row' : list byte) (i writePos wp' : Z),
    Z.of_nat (length row) = R ->
    0 <= writePos <= i -> i < R + st ->
    strides_from info i < Z.of_nat fuel ->
    row_loop fuel info row i writePos = Ok (row', wp') ->
    forall j y : Z,
      0 <= j -> i + j * st + c < R -> 0 <= y < c ->
      row' !! Z.to_nat (writePos + j * c + y)
      = row !! Z.to_nat (i + j * st + y).
Proof.
  pose proof (stride_fits info Hctx) as Hfit.
  pose proof (stride_ge_channels info Hctx) as Hst.
  induction fuel as [|fuel IH];
    intros row row' i writePos wp' Hlen Hwp Hi Hfuel Hrun j y Hj Hcopied Hy.
  - discriminate Hrun.
  - assert (Hin : i + c < R) by nia.
    rewrite (row_loop_iter info Hctx) in Hrun by lia.
    replace (i + c <? R) with true in Hrun by (symmetry; apply Z.ltb_lt; lia).
    destruct (copy_pixel_copies (Z.to_nat c) row writePos i 0)
      as (row1 & Hcopy & Hl1 & Hout1 & Hin1); try lia.
    rewrite Hcopy in Hrun. cbn [bind] in Hrun.
    rewrite (strides_from_iter info Hctx i) in Hfuel.
    destruct (row_loop_run info Hctx fuel row1 (i + st) (writePos + c))
      as (row2 & Hrun2 & _ & Hlow & _); try lia.
    rewrite Hrun2 in Hrun. injection Hrun as <- _.
    destruct (Z.eq_dec j 0) as [->|Hne].
    + rewrite !Z.mul_0_l, !Z.add_0_r.
      rewrite Hlow by lia.
      specialize (Hin1 y ltac:(lia)). rewrite !Z.add_0_r in Hin1.
      exact Hin1.
    + replace (writePos + j * c + y)
        with (writePos + c + (j - 1) * c + y) by lia.
      rewrite (IH row1 row2 (i + st) (writePos + c)
                 (writePos + c + c * strides_from info (i + st)));
        try lia; try assumption; try nia.
      replace (i + st + (j - 1) * st + y) with (i + j * st + y) by lia.
      apply Hout1. nia.
Qed.

End RowSampling.

(** X1: the loop packs the sampled pixels at the start of the buffer and
    leaves every other byte alone: byte [y] of the [k]-th group of [channels]
    bytes is byte [y] of the pixel at offset [k * stride] when that pixel
    passes the guard, and the byte that was there before otherwise. *)
Theorem row_loop_packs_sampled_pixels
  (fuel : nat) (info : userInfo) (row : list byte) :
  ctx_ok info ->
  Z.of_nat (length row) = rowWidth info ->
  rowWidth info < Z.of_nat fuel ->
  exists (row' : list byte) (writePos : Z),
    row_loop fuel info row 0 0 = Ok (row', writePos) /\
    length row' = length row /\
    forall k y : Z,
      0 <= k -> 0 <= y < channels info ->
      row' !! Z.to_nat (k * channels info + y)
      = if k * stride info + channels info <? rowWidth info
        then row !! Z.to_nat (k * stride info + y)
        else row !! Z.to_nat (k * channels info + y).
Proof.
  intros Hctx Hlen Hfuel.
  pose proof (stride_ge_channels info Hctx) as Hst.
  pose proof (strides_from_le info Hctx 0) as Hle.
  pose proof Hctx as (HR & _).
  set (n := strides_from info 0) in *.
  assert (Hceil : (n - 1) * stride info < rowWidth info <= n * stride info).
  { subst n. unfold strides_from. rewrite Z.sub_0_r.
    pose proof (Z.mul_div_le (rowWidth info + stride info - 1) (stride info)).
    pose proof (Z.mul_succ_div_gt (rowWidth info + stride info - 1) (stride info)).
    lia. }
  destruct (row_loop_run info Hctx fuel row 0 0)
    as (row' & Hrun & Hl & _ & Hhigh & Hlast); try lia.
  fold n in Hrun, Hhigh, Hlast.
  exists row', (0 + channels info * n).
  split; [exact Hrun|]. split; [exact Hl|].
  intros k y Hk Hy.
  destruct (k * stride info + channels info <? rowWidth info) eqn:G.
  - apply Z.ltb_lt in G.
    pose proof (row_loop_samples info Hctx fuel row row' 0 0 _ Hlen
                  ltac:(lia) ltac:(lia) ltac:(fold n; lia) Hrun k y Hk
                  ltac:(lia) Hy) as H.
    rewrite !Z.add_0_l in H. exact H.
  - apply Z.ltb_ge in G.
    assert (Hkn : n - 1 <= k) by nia.
    destruct (Z.eq_dec k (n - 1)) as [->|Hne].
    + apply Hlast; nia.
    + apply Hhigh. nia.
Qed.

(** ** What the callbacks do to the sink and to the user state *)

Lemma synced_app (l1 l2 : list written) :
  forall pending : bool,
    synced pending l1 = true -> synced false l2 = true ->
    synced pending (l1 ++ l2) = true.
Proof.
  induction l1 as [|e l1 IH]; intros pending H1 H2.
  - destruct pending; [discriminate|exact H2].
  - destruct e, pending; cbn in *; try discriminate; now apply IH.
Qed.

(** One event appends records to the sink, each followed by a flush, and
    keeps the sample rate, a set [isDone] and the writer's memory. *)
Lemma dispatch_appends (fuel : nat) (info info' : userInfo) (ev : event) :
  dispatch fuel info ev = Ok info' ->
  sampleRate info' = sampleRate info /\
  (isDone info = true -> isDone info' = true) /\
  exists l, sunk info' = sunk info ++ l /\ synced false l = true.
Proof.
  destruct ev as [pi|row r p|]; cbn [dispatch].
  - unfold info_callback.
    destruct (negb (has_memory (png_write_ptr info))); [discriminate|].
    destruct ((width (ihdr pi) <? sampleRate info)
              || (height (ihdr pi) <? sampleRate info)); [discriminate|].
    destruct (sampleRate info =? 0); [discriminate|].
    intros [= <-]. cbn. split; [reflexivity|]. split; [auto|].
    eexists. unfold sunk. cbn. rewrite <- app_assoc. split; reflexivity.
  - unfold row_callback.
    destruct (rowWidth info <=? 0); [discriminate|].
    destruct (sampleRate info =? 0); [discriminate|].
    destruct (to_unsigned r mod sampleRate info =? 0).
    + destruct (row_loop fuel info row 0 0) as [x| |]; cbn [bind];
        try discriminate.
      intros [= <-]. cbn. split; [reflexivity|]. split; [auto|].
      eexists. unfold sunk. cbn. rewrite <- app_assoc. split; reflexivity.
    + cbn [bind fst]. intros [= <-]. split; [reflexivity|]. split; [auto|].
      exists []. now rewrite app_nil_r.
  - unfold end_callback. intros [= <-]. cbn.
    split; [reflexivity|]. split; [auto|].
    eexists. unfold sunk. cbn. rewrite <- app_assoc. split; reflexivity.
Qed.

Lemma png_process_data_appends (fuel : nat) (evs : list event) :
  forall info : userInfo,
    let info' := fst (png_process_data fuel info evs) in
    sampleRate info' = sampleRate info /\
    (isDone info = true -> isDone info' = true) /\
    exists l, sunk info' = sunk info ++ l /\ synced false l = true.
Proof.
  induction evs as [|ev evs IH]; intros info; cbn [png_process_data].
  - cbn. split; [reflexivity|]. split; [auto|].
    exists []. now rewrite app_nil_r.
  - destruct (dispatch fuel info ev) as [info1| |] eqn:E; cbn [fst].
    + destruct (dispatch_appends fuel info info1 ev E) as (Hs & Hd & l1 & Hl1 & Hf1).
      destruct (IH info1) as (Hs2 & Hd2 & l2 & Hl2 & Hf2).
      cbv zeta. split; [congruence|]. split; [auto|].
      exists (l1 ++ l2). split.
      * rewrite Hl2, Hl1. now rewrite app_assoc.
      * now apply synced_app.
    + split; [reflexivity|]. split; [auto|].
      exists []. now rewrite app_nil_r.
    + split; [reflexivity|]. split; [auto|].
      exists []. now rewrite app_nil_r.
Qed.

(** X2: whatever the decoder pushes and however the processing ends, what
    reached the sink stays there and is only appended to, the sample rate is
    never changed, and [isDone] is never reset. *)
Theorem sink_only_grows (fuel : nat) (info : userInfo) (evs : list event) :
  let info' := fst (png_process_data fuel info evs) in
  (exists l, sunk info' = sunk info ++ l) /\
  sampleRate info' = sampleRate info /\
  (isDone info = true -> isDone info' = true).
Proof.
  destruct (png_process_data_appends fuel evs info) as (Hs & Hd & l & Hl & _).
  cbv zeta. split; [exists l; exact Hl|]. split; assumption.
Qed.

(** X3: if every header, row and end record in the sink is followed by a
    flush before a call of [png_process_data], so it is after the call, also
    when a callback throws in the middle of it. *)
Theorem sink_stays_flushed (fuel : nat) (info : userInfo) (evs : list event) :
  synced false (sunk info) = true ->
  synced false (sunk (fst (png_process_data fuel info evs))) = true.
Proof.
  intros H.
  destruct (png_process_data_appends fuel evs info) as (_ & _ & l & Hl & Hf).
  cbv zeta in Hl. rewrite Hl. now apply synced_app.
Qed.

(** ** How the callbacks fail *)

Lemma copy_pixel_raises (k : nat) :
  forall (row : list byte) (writePos i y : Z) (e : failure),
    copy_pixel k row writePos i y = Raise e -> e = undefined_behaviour.
Proof.
  induction k as [|k IH]; intros row writePos i y e; cbn [copy_pixel].
  - discriminate.
  - destruct (in_int y && in_int (writePos + y) && in_int (i + y));
      [|now intros [= <-]].
    unfold load, store.
    destruct (in_int (i + y) && (0 <=? i + y)); [|now intros [= <-]].
    destruct (row !! Z.to_nat (i + y)); [|now intros [= <-]].
    cbn [bind].
    destruct (in_int (writePos + y) && (0 <=? writePos + y)
              && (writePos + y <? Z.of_nat (length row)));
      [|now intros [= <-]].
    cbn [bind]. apply IH.
Qed.

Lemma row_loop_raises (fuel : nat) :
  forall (info : userInfo) (row : list byte) (i writePos : Z) (e : failure),
    row_loop fuel info row i writePos = Raise e -> e = undefined_behaviour.
Proof.
  induction fuel as [|fuel IH]; intros info row i writePos e; cbn [row_loop].
  - discriminate.
  - destruct (to_size_t i <? rowWidth info); [|discriminate].
    destruct (to_size_t (to_size_t i + channels info) <? rowWidth info).
    + destruct (copy_pixel (Z.to_nat (channels info)) row writePos i 0)
        as [row1|e1|] eqn:E; cbn [bind].
      * apply IH.
      * intros [= <-]. now apply copy_pixel_raises in E.
      * discriminate.
    + cbn [bind]. apply IH.
Qed.

(** What [row_callback] can raise. *)
Lemma row_callback_raises
  (fuel : nat) (info : userInfo) (row : list byte) (r : Z) (e : failure) :
  row_callback fuel info row r = Raise e ->
  (e = assertion_failed /\ rowWidth info <= 0) \/
  (e = undefined_behaviour /\ 0 < rowWidth info).
Proof.
  unfold row_callback.
  destruct (rowWidth info <=? 0) eqn:HR.
  - intros [= <-]. left. split; [reflexivity|]. now apply Z.leb_le.
  - apply Z.leb_gt in HR.
    destruct (sampleRate info =? 0); [intros [= <-]; right; auto|].
    destruct (to_unsigned r mod sampleRate info =? 0); [|discriminate].
    destruct (row_loop fuel info row 0 0) as [x|e1|] eqn:E; cbn [bind];
      try discriminate.
    intros [= <-]. apply row_loop_raises in E. right. auto.
Qed.

(** X4: [row_callback] fails its assertion exactly when the row width is 0,
    as it is for every row pushed before the header; it throws no exception,
    and its only other failure is undefined behaviour (of the sampling loop,
    or of a division by a zero sample rate), which needs a row width above
    0. *)
Theorem row_callback_failures
  (fuel : nat) (info : userInfo) (row : list byte) (r : Z) :
  (row_callback fuel info row r = Raise assertion_failed
   <-> rowWidth info <= 0) /\
  (forall (w : png_struct) (rate : Z),
      row_callback fuel (initial_info w rate) row r = Raise assertion_failed) /\
  (forall e : failure,
      row_callback fuel info row r = Raise e ->
      e = assertion_failed \/
      (e = undefined_behaviour /\ 0 < rowWidth info)).
Proof.
  split; [|split].
  - split.
    + intros H. apply row_callback_raises in H.
      destruct H as [[_ H]|[H _]]; [exact H|discriminate H].
    + intros H. unfold row_callback.
      now rewrite (proj2 (Z.leb_le _ _) H).
  - intros w rate. reflexivity.
  - intros e H. apply row_callback_raises in H.
    destruct H as [[H _]|H]; [left; exact H|right; exact H].
Qed.

(** X5: through the callbacks as [coPng] registers them, with a user pointer
    that is not null, an exception is thrown exactly in two cases, both at
    the header event: the info struct of the writer cannot be created, or it
    can and the width or the height is below the sample rate.  Row events
    throw nothing, and [end_callback] throws only for a null user pointer,
    which this registration never passes. *)
Theorem exceptions_come_from_the_header
  (fuel : nat) (info : userInfo) (ev : event) (what : string) :
  (dispatch fuel info ev = Raise (runtime_error what) <->
   exists pi : png_info,
     ev = on_info pi /\
     ((runtime_error what = EncodeInitError /\
       has_memory (png_write_ptr info) = false) \/
      (runtime_error what = InvalidSampleRate /\
       has_memory (png_write_ptr info) = true /\
       (width (ihdr pi) < sampleRate info \/
        height (ihdr pi) < sampleRate info)))) /\
  end_callback None = Raise (runtime_error "No info struct in end_callback") /\
  (forall e : failure, end_callback (Some info) <> Raise e).
Proof.
  split; [|split; [reflexivity|discriminate]].
  split.
  - destruct ev as [pi|row r p|]; cbn [dispatch].
    + intros H. exists pi. split; [reflexivity|]. revert H.
      unfold info_callback.
      destruct (has_memory (png_write_ptr info)); cbn [negb].
      * destruct ((width (ihdr pi) <? sampleRate info)
                  || (height (ihdr pi) <? sampleRate info)) eqn:G.
        -- intros H. right. split; [congruence|]. split; [reflexivity|].
           apply orb_true_iff in G. rewrite !Z.ltb_lt in G. exact G.
        -- destruct (sampleRate info =? 0); discriminate.
      * intros H. left. split; [congruence|reflexivity].
    + destruct (row_callback fuel info row r) as [x|e|] eqn:E; cbn [bind];
        try discriminate.
      intros [= ->]. apply row_callback_raises in E.
      destruct E as [[E _]|[E _]]; discriminate E.
    + discriminate.
  - intros (pi & -> & [[Hwhat Hmem]|(Hwhat & Hmem & Hdim)]);
      cbn [dispatch]; unfold info_callback; rewrite Hmem; cbn [negb].
    + now rewrite Hwhat.
    + replace ((width (ihdr pi) <? sampleRate info)
               || (height (ihdr pi) <? sampleRate info)) with true
        by (symmetry; apply orb_true_iff; rewrite !Z.ltb_lt; exact Hdim).
      now rewrite Hwhat.
Qed.

(** ** The header written *)

(** X6: whenever [info_callback] writes a header, its width and height are
    at least 1 and at most those of the input, every other field is the
    input's, and the row width and channel count of the user state are the
    decoder's. *)
Theorem written_header_is_not_empty (info info' : userInfo) (pi : png_info) :
  0 <= sampleRate info ->
  info_callback info pi = Ok info' ->
  exists out : IHDR,
    sunk info' = sunk info ++ [WInfo out; WFlush] /\
    1 <= width out <= width (ihdr pi) /\
    1 <= height out <= height (ihdr pi) /\
    bit_depth out = bit_depth (ihdr pi) /\
    color_type out = color_type (ihdr pi) /\
    interlace_type out = interlace_type (ihdr pi) /\
    compression_type out = compression_type (ihdr pi) /\
    filter_type out = filter_type (ihdr pi) /\
    rowWidth info' = rowbytes pi /\ channels info' = nchannels pi.
Proof.
  intros Hs. unfold info_callback.
  destruct (negb (has_memory (png_write_ptr info))); [discriminate|].
  destruct ((width (ihdr pi) <? sampleRate info)
            || (height (ihdr pi) <? sampleRate info)) eqn:G; [discriminate|].
  destruct (sampleRate info =? 0) eqn:Z0; [discriminate|].
  apply orb_false_iff in G. rewrite !Z.ltb_ge in G. apply Z.eqb_neq in Z0.
  intros [= <-]. eexists. split.
  - unfold sunk. cbn. now rewrite <- app_assoc.
  - cbn.
    pose proof (Z.mul_div_le (width (ihdr pi)) (sampleRate info)).
    pose proof (Z.mul_succ_div_gt (width (ihdr pi)) (sampleRate info)).
    pose proof (Z.mul_div_le (height (ihdr pi)) (sampleRate info)).
    pose proof (Z.mul_succ_div_gt (height (ihdr pi)) (sampleRate info)).
    repeat split; try reflexivity; nia.
Qed.

(** ** A whole image *)

Lemma info_callback_run (info : userInfo) (pi : png_info) :
  has_memory (png_write_ptr info) = true ->
  1 <= sampleRate info <= Z.min (width (ihdr pi)) (height (ihdr pi)) ->
  exists out : IHDR,
    height out = height (ihdr pi) / sampleRate info /\
    info_callback info pi =
    Ok {| isDone := isDone info;
          png_write_ptr :=
            png_write_flush (png_write_info (png_write_ptr info) out);
          rowWidth := rowbytes pi; channels := nchannels pi;
          sampleRate := sampleRate info |}.
Proof.
  intros Hmem Hrate. unfold info_callback.
  rewrite Hmem. cbn [negb].
  replace ((width (ihdr pi) <? sampleRate info)
           || (height (ihdr pi) <? sampleRate info)) with false
    by (symmetry; apply orb_false_iff; rewrite !Z.ltb_ge; lia).
  replace (sampleRate info =? 0) with false by (symmetry; apply Z.eqb_neq; lia).
  eexists. split; [|reflexivity]. reflexivity.
Qed.

Lemma headers_of_rows {A : Type} (f : A -> list byte) (l : list A) :
  headers_of (flat_map (fun a => [WRow (f a); WFlush]) l) = [].
Proof. induction l as [|a l IH]; [reflexivity|]. exact IH. Qed.

(** Among 0, ..., [h - 1] there are [h / s], rounded up, multiples of [s]. *)
Lemma count_multiples (s : Z) (h : nat) :
  1 <= s ->
  Z.of_nat (length (List.filter (fun r => r mod s =? 0)
                                (map Z.of_nat (seq 0 h))))
  = (Z.of_nat h + s - 1) / s.
Proof.
  intros Hs. induction h as [|h IH].
  - cbn. symmetry. apply Z.div_small. lia.
  - rewrite List.seq_S, List.map_app, List.filter_app, List.length_app,
      Nat2Z.inj_add, IH.
    cbn [map List.filter Nat.add].
    pose proof (Z.div_mod (Z.of_nat h) s ltac:(lia)) as Hdm.
    pose proof (Z.mod_pos_bound (Z.of_nat h) s ltac:(lia)) as Hb.
    set (q := Z.of_nat h / s) in *. set (t := Z.of_nat h mod s) in *.
    destruct (t =? 0) eqn:E.
    + apply Z.eqb_eq in E. cbn [length].
      rewrite <- (Z.div_unique_pos (Z.of_nat h + s - 1) s q (s - 1))
        by lia.
      rewrite <- (Z.div_unique_pos (Z.of_nat (S h) + s - 1) s (q + 1) 0)
        by lia.
      lia.
    + apply Z.eqb_neq in E. cbn [length].
      rewrite <- (Z.div_unique_pos (Z.of_nat h + s - 1) s (q + 1) (t - 1))
        by lia.
      rewrite <- (Z.div_unique_pos (Z.of_nat (S h) + s - 1) s (q + 1) t)
        by lia.
      lia.
Qed.

Lemma retained_rows_upto (info : userInfo) (h : nat) (row_at : nat -> list byte) :
  length (retained info (rows_upto h row_at))
  = length (List.filter (fun r => r mod sampleRate info =? 0)
                        (map Z.of_nat (seq 0 h))).
Proof.
  unfold retained, rows_upto.
  induction (seq 0 h) as [|n l IH]; [reflexivity|].
  cbn [map List.filter fst].
  destruct (Z.of_nat n mod sampleRate info =? 0); cbn [length]; now rewrite IH.
Qed.

Lemma ceil_is_floor_iff (h s : Z) :
  0 <= h -> 1 <= s -> (h + s - 1) / s = h / s <-> h mod s = 0.
Proof.
  intros Hh Hs.
  pose proof (Z.div_mod h s ltac:(lia)) as Hdm.
  pose proof (Z.mod_pos_bound h s ltac:(lia)) as Hb.
  set (q := h / s) in *. set (t := h mod s) in *.
  destruct (Z.eq_dec t 0) as [E|E].
  - rewrite <- (Z.div_unique_pos (h + s - 1) s q (s - 1)) by lia. tauto.
  - rewrite <- (Z.div_unique_pos (h + s - 1) s (q + 1) (t - 1)) by lia. lia.
Qed.

(** X7: a whole image at a sample rate within its dimensions goes through:
    the sink receives the header, then each retained row, then the end, and
    [isDone] is set.  The rows written are the image height over the sample
    rate rounded up, while the header written declares that quotient rounded
    down; the two agree exactly when the sample rate divides the height. *)
Theorem whole_image_rows_and_header
  (fuel : nat) (info : userInfo) (pi : png_info) (h : nat)
  (row_at : nat -> list byte) :
  has_memory (png_write_ptr info) = true ->
  height (ihdr pi) = Z.of_nat h ->
  1 <= sampleRate info <= Z.min (width (ihdr pi)) (height (ihdr pi)) ->
  1 <= rowbytes pi -> 1 <= nchannels pi ->
  rowbytes pi + sampleRate info * nchannels pi <= 2 ^ 31 ->
  rowbytes pi < Z.of_nat fuel ->
  Z.of_nat h <= 2 ^ 32 ->
  (forall n : nat, Z.of_nat (length (row_at n)) = rowbytes pi) ->
  let written_rows := (height (ihdr pi) + sampleRate info - 1) / sampleRate info in
  exists (info' : userInfo) (out : IHDR),
    png_process_data fuel info (image_events pi (rows_upto h row_at))
    = (info', Ok tt) /\
    isDone info' = true /\
    headers_of (sunk info') = headers_of (sunk info) ++ [out] /\
    height out = height (ihdr pi) / sampleRate info /\
    Z.of_nat (length (rows_of (sunk info')))
    = Z.of_nat (length (rows_of (sunk info))) + written_rows /\
    (written_rows = height out <-> height (ihdr pi) mod sampleRate info = 0).
Proof.
  intros Hmem Hh Hrate HR Hc Hfit Hfuel Hmax Hrows written_rows.
  destruct (info_callback_run info pi Hmem Hrate) as (out & Hout & Hcb).
  unfold image_events. cbn [png_process_data dispatch]. rewrite Hcb.
  match goal with
  | |- context [png_process_data fuel ?i (row_events _ ++ _)] =>
      remember i as info1 eqn:E1
  end.
  assert (HR1 : rowWidth info1 = rowbytes pi) by (now subst info1).
  assert (Hs1 : sampleRate info1 = sampleRate info) by (now subst info1).
  assert (Hctx : ctx_ok info1) by (subst info1; unfold ctx_ok; cbn; lia).
  assert (Hall : Forall (fun rb => 0 <= fst rb < 2 ^ 32 /\
                           Z.of_nat (length (snd rb)) = rowWidth info1)
                        (rows_upto h row_at)).
  { unfold rows_upto. apply Forall_forall. intros rb Hin.
    apply list_elem_of_In, in_map_iff in Hin as (n & <- & Hn).
    apply in_seq in Hn. cbn [fst snd]. rewrite HR1. split; [lia|apply Hrows]. }
  destruct (process_rows fuel (rows_upto h row_at) info1 Hctx
              ltac:(rewrite HR1; exact Hfuel) Hall)
    as (info2 & Hrun & _ & _ & _ & Hd2 & _ & Hsink).
  rewrite png_process_data_app, Hrun.
  cbn [png_process_data dispatch end_callback].
  eexists. exists out. split; [reflexivity|]. split; [reflexivity|].
  unfold sunk in *. cbn [png_write_ptr png_write_flush png_write_end emit sink].
  rewrite Hsink. subst info1.
  cbn [png_write_ptr png_write_flush png_write_info emit sink].
  split; [|split; [exact Hout|split]].
  - rewrite !headers_of_app, headers_of_rows. cbn.
    now rewrite !app_nil_r.
  - rewrite !rows_of_app, rows_of_flat_map. cbn.
    rewrite !app_nil_r, length_app, length_map, Nat2Z.inj_add.
    rewrite retained_rows_upto. cbn [sampleRate].
    rewrite count_multiples by lia. subst written_rows. now rewrite Hh.
  - rewrite Hout. subst written_rows. apply ceil_is_floor_iff; lia.
Qed.

(** ** The reader between two reads *)

Lemma length_blit (buf : list byte) (off : nat) (data : list byte) :
  (off + length data <= length buf)%nat ->
  length (blit buf off data) = length buf.
Proof.
  intros H. unfold blit.
  rewrite !length_app, length_take, length_drop. lia.
Qed.

Lemma take_blit_before (buf : list byte) (off : nat) (data : list byte) :
  (off <= length buf)%nat ->
  take off (blit buf off data) = take off buf.
Proof.
  intros H. unfold blit. apply take_app_length'.
  now rewrite length_take_le.
Qed.

(** X8: on a reader with room, [await_suspend] either throws the read error
    or answers with a reader that still fits its array: the array keeps its
    size, the count does not decrease and does not pass the size, and the
    bytes accumulated before the call are still at the start of the array.
    It asks to suspend only when bytes arrived and room is left.  The
    assertion and the bounds check of [at] never fail. *)
Theorem await_suspend_keeps_reader (bufSize : Z) (r : Reader) :
  reader_ok bufSize r ->
  totalRead r < bufSize ->
  await_suspend bufSize r = Raise IOReadError \/
  exists (flag : bool) (r' : Reader),
    await_suspend bufSize r = Ok (flag, r') /\
    reader_ok bufSize r' /\
    totalRead r <= totalRead r' /\
    take (Z.to_nat (totalRead r)) (imageBuffer r')
    = take (Z.to_nat (totalRead r)) (imageBuffer r) /\
    (flag = true -> totalRead r < totalRead r' < bufSize).
Proof.
  intros ((Hlo & Hhi) & Hsize & Hbuf) Hroom.
  pose proof (readsome_length (imageStream r) (bufSize - totalRead r)) as Hle.
  unfold await_suspend.
  replace (bufSize <=? totalRead r) with false
    by (symmetry; apply Z.leb_gt; lia).
  destruct (readsome (imageStream r) (bufSize - totalRead r)) as [data s].
  cbn [fst] in Hle. specialize (Hle ltac:(lia)).
  assert (Hlen : length (blit (imageBuffer r) (Z.to_nat (totalRead r)) data)
                 = length (imageBuffer r)) by (apply length_blit; lia).
  assert (Hkeep : take (Z.to_nat (totalRead r))
                       (blit (imageBuffer r) (Z.to_nat (totalRead r)) data)
                  = take (Z.to_nat (totalRead r)) (imageBuffer r))
    by (apply take_blit_before; lia).
  destruct (Z.of_nat (length data) =? 0) eqn:E0.
  - right. eexists. eexists. split; [reflexivity|].
    unfold reader_ok. cbn [totalRead imageBuffer].
    repeat split; try lia; exact Hkeep.
  - apply Z.eqb_neq in E0.
    destruct (fail s); [left; reflexivity|right].
    rewrite to_size_t_small by lia.
    replace (bufSize <? totalRead r + Z.of_nat (length data)) with false
      by (symmetry; apply Z.ltb_ge; lia).
    destruct (totalRead r + Z.of_nat (length data) =? bufSize) eqn:E1;
      eexists; eexists; (split; [reflexivity|]);
      unfold reader_ok; cbn [totalRead imageBuffer];
      repeat split; try lia; try exact Hkeep; try discriminate.
    all: intros _; apply Z.eqb_neq in E1; lia.
Qed.

(** ** The loop of [coPng] *)

(** [main]'s loop leaves a coroutine that is not suspended as it is. *)
Lemma drive_settled {D : Type} (feed : D -> list byte -> D * list event)
  (bufSize : Z) (fuel m n : nat) (c : coroutine D) :
  match c with Created _ _ _ | Awaiting _ => False | _ => True end ->
  drive feed bufSize fuel m n c = c.
Proof. destruct c, m; cbn; tauto. Qed.

Section DriverLoop.

Variable D : Type.
Variable feed : D -> list byte -> D * list event.
Variable bufSize : Z.
Variable fuel : nat.
Hypothesis Hsize : 0 < bufSize < 2 ^ 64.

(** [co_await] at the head of an iteration, where the reader is cleared. *)

Lemma co_await_no_reply (failed : bool) (buf : list byte) (d : D) (u : userInfo) :
  co_await bufSize (frame_at [] failed buf 0 d u)
  = Ok (false, frame_at [] failed buf 0 d u).
Proof.
  unfold co_await, await_ready, await_suspend, frame_at, with_reader.
  cbn [imageReader totalRead imageStream imageBuffer png_ptr user].
  replace (0 =? bufSize) with false by (symmetry; apply Z.eqb_neq; lia).
  replace (bufSize <=? 0) with false by (symmetry; apply Z.leb_gt; lia).
  unfold readsome. cbn. now rewrite blit_nil.
Qed.

Lemma co_await_empty_reply (r : reply) (rest : list reply) (failed : bool)
  (buf : list byte) (d : D) (u : userInfo) :
  take (Z.to_nat bufSize) (got r) = [] ->
  co_await bufSize (frame_at (r :: rest) failed buf 0 d u)
  = Ok (false, frame_at rest (failed || fails r) buf 0 d u).
Proof.
  intros Hnone.
  unfold co_await, await_ready, await_suspend, frame_at, with_reader.
  cbn [imageReader totalRead imageStream imageBuffer png_ptr user].
  replace (0 =? bufSize) with false by (symmetry; apply Z.eqb_neq; lia).
  replace (bufSize <=? 0) with false by (symmetry; apply Z.leb_gt; lia).
  unfold readsome. cbn [replies failbit]. rewrite Z.sub_0_r, Hnone.
  cbn. now rewrite blit_nil.
Qed.

Lemma co_await_reply (r : reply) (rest : list reply) (failed : bool)
  (buf : list byte) (d : D) (u : userInfo) :
  let data := take (Z.to_nat bufSize) (got r) in
  data <> [] ->
  co_await bufSize (frame_at (r :: rest) failed buf 0 d u)
  = if failed || fails r then Raise IOReadError
    else Ok (negb (Z.of_nat (length data) =? bufSize),
             frame_at rest (failed || fails r) (blit buf 0 data)
                      (Z.of_nat (length data)) d u).
Proof.
  intros data Hsome.
  assert (Hlen : 0 < Z.of_nat (length data) <= bufSize).
  { subst data. rewrite length_take.
    destruct (take (Z.to_nat bufSize) (got r)) eqn:E; [congruence|].
    apply (f_equal length) in E. rewrite length_take in E. cbn in E. lia. }
  unfold co_await, await_ready, await_suspend, frame_at, with_reader.
  cbn [imageReader totalRead imageStream imageBuffer png_ptr user].
  replace (0 =? bufSize) with false by (symmetry; apply Z.eqb_neq; lia).
  replace (bufSize <=? 0) with false by (symmetry; apply Z.leb_gt; lia).
  unfold readsome, fail. cbn [replies failbit]. rewrite Z.sub_0_r. fold data.
  replace (Z.of_nat (length data) =? 0) with false
    by (symmetry; apply Z.eqb_neq; lia).
  destruct (failed || fails r); [reflexivity|].
  rewrite Z.add_0_l, to_size_t_small by lia.
  replace (bufSize <? Z.of_nat (length data)) with false
    by (symmetry; apply Z.ltb_ge; lia).
  cbn [Z.to_nat].
  destruct (Z.of_nat (length data) =? bufSize); reflexivity.
Qed.

(** The rest of the iteration is the chunk going through. *)
Lemma finish_chunk (again : frame D -> coroutine D) (rs : list reply)
  (failed : bool) (buf : list byte) (total : Z) (d : D) (u : userInfo)
  (span : list byte) :
  take (Z.to_nat total) buf = span ->
  finish feed fuel again (frame_at rs failed buf total d u)
  = chunk_through feed fuel {| replies := rs; failbit := failed |} buf total
      d u span (fun b d' u' => again (frame_at rs failed b 0 d' u')).
Proof.
  intros Hspan.
  unfold finish, loop_body, chunk_through, await_resume, frame_at, with_reader, clear.
  cbn [imageReader totalRead imageStream imageBuffer png_ptr user].
  rewrite Hspan.
  destruct (snd (png_process_data fuel u (snd (feed d span)))); try reflexivity.
  destruct (loop_ends _ span); reflexivity.
Qed.

Lemma chunk_through_empty (s : ifstream) (buf : list byte) (total : Z)
  (d : D) (u : userInfo)
  (next1 next2 : list byte -> D -> userInfo -> coroutine D) :
  chunk_through feed fuel s buf total d u [] next1
  = chunk_through feed fuel s buf total d u [] next2.
Proof.
  unfold chunk_through, loop_ends. cbn [length Z.of_nat Z.eqb].
  rewrite orb_true_r. reflexivity.
Qed.

Lemma chunk_through_next (s : ifstream) (buf : list byte) (total : Z)
  (d : D) (u : userInfo) (span : list byte)
  (next1 next2 : list byte -> D -> userInfo -> coroutine D) :
  (forall d' u', next1 buf d' u' = next2 buf d' u') ->
  chunk_through feed fuel s buf total d u span next1
  = chunk_through feed fuel s buf total d u span next2.
Proof.
  intros H. unfold chunk_through.
  destruct (snd (png_process_data fuel u (snd (feed d span)))); try reflexivity.
  destruct (loop_ends _ span); [reflexivity|apply H].
Qed.

(** [main]'s loop goes on until the chunk is through and, if the loop of
    [coPng] goes on, through what comes next. *)
Lemma drive_chunk_through (m n : nat) (s : ifstream) (buf : list byte)
  (total : Z) (d : D) (u : userInfo) (span : list byte)
  (next : list byte -> D -> userInfo -> coroutine D) :
  drive feed bufSize fuel m n (chunk_through feed fuel s buf total d u span next)
  = chunk_through feed fuel s buf total d u span
      (fun b d' u' => drive feed bufSize fuel m n (next b d' u')).
Proof.
  unfold chunk_through.
  destruct (snd (png_process_data fuel u (snd (feed d span))));
    try (now apply drive_settled).
  destruct (loop_ends _ span); [now apply drive_settled|reflexivity].
Qed.

(** The loop of [coPng] under [main]'s loop, from the head of an iteration,
    is the transcoding told over the answers of the source. *)
Lemma drive_run_transcode (rs : list reply) :
  forall (failed : bool) (buf : list byte) (d : D) (u : userInfo)
         (m n k : nat),
    (length rs < m)%nat -> (length rs < n)%nat -> (length rs < k)%nat ->
    Z.of_nat (length buf) = bufSize ->
    drive feed bufSize fuel m n
      (run feed bufSize fuel k (frame_at rs failed buf 0 d u))
    = transcode feed bufSize fuel rs failed buf d u.
Proof.
  induction rs as [|r rest IH]; intros failed buf d u m n k Hm Hn Hk Hbuf.
  - destruct k as [|k]; [cbn in Hk; lia|]. cbn [run transcode].
    rewrite co_await_no_reply.
    rewrite (finish_chunk _ _ _ _ _ _ _ []) by reflexivity.
    rewrite drive_chunk_through. apply chunk_through_empty.
  - destruct k as [|k]; [cbn in Hk; lia|].
    destruct m as [|m]; [cbn in Hm; lia|].
    cbn [length] in Hm, Hn, Hk.
    cbn [run transcode].
    destruct (take (Z.to_nat bufSize) (got r)) as [|b data] eqn:Hdata.
    + rewrite co_await_empty_reply by exact Hdata.
      rewrite (finish_chunk _ _ _ _ _ _ _ []) by reflexivity.
      rewrite drive_chunk_through. apply chunk_through_empty.
    + pose proof (co_await_reply r rest failed buf d u) as Hco.
      cbv zeta in Hco. rewrite Hdata in Hco.
      rewrite Hco by discriminate. clear Hco.
      destruct (failed || fails r) eqn:Hfail; [now apply drive_settled|].
      assert (Hlen : Z.of_nat (length (b :: data)) <= bufSize).
      { rewrite <- Hdata, length_take. lia. }
      assert (Hbuf' : Z.of_nat (length (blit buf 0 (b :: data))) = bufSize).
      { rewrite length_blit; [exact Hbuf|lia]. }
      assert (Hspan : take (Z.to_nat (Z.of_nat (length (b :: data))))
                           (blit buf 0 (b :: data)) = b :: data).
      { rewrite Nat2Z.id.
        exact (take_blit buf 0 (b :: data) ltac:(lia)). }
      destruct (negb (Z.of_nat (length (b :: data)) =? bufSize)).
      * cbn [drive resume].
        rewrite (finish_chunk _ _ _ _ _ _ _ (b :: data)) by exact Hspan.
        rewrite drive_chunk_through. apply chunk_through_next.
        intros d' u'. apply IH; solve [lia | exact Hbuf'].
      * rewrite (finish_chunk _ _ _ _ _ _ _ (b :: data)) by exact Hspan.
        rewrite drive_chunk_through. apply chunk_through_next.
        intros d' u'. apply IH; solve [lia | exact Hbuf'].
Qed.

(** The transcoding ends: done, terminated, or cut in a sampling loop. *)
Lemma transcode_settles (rs : list reply) :
  forall (failed : bool) (buf : list byte) (d : D) (u : userInfo),
    match transcode feed bufSize fuel rs failed buf d u with
    | Done _ | Terminated _ (Some _) | RowCut => True
    | _ => False
    end.
Proof.
  assert (Hempty : forall s buf total d u next,
    match chunk_through feed fuel s buf total d u [] next with
    | Done _ | Terminated _ (Some _) | RowCut => True
    | _ => False
    end).
  { intros. unfold chunk_through, loop_ends. cbn [length Z.of_nat Z.eqb].
    rewrite orb_true_r.
    destruct (snd (png_process_data fuel u (snd (feed d [])))); exact I. }
  induction rs as [|r rest IH]; intros failed buf d u; cbn [transcode].
  - apply Hempty.
  - destruct (take (Z.to_nat bufSize) (got r)) as [|b data]; [apply Hempty|].
    destruct (failed || fails r); [exact I|].
    unfold chunk_through.
    destruct (snd (png_process_data fuel u (snd (feed d (b :: data)))));
      try exact I.
    destruct (loop_ends _ (b :: data)); [exact I|apply IH].
Qed.

End DriverLoop.

(** ** [coPng] under [main] *)

Lemma setup_ready {D : Type} (e : environment) (png0 : D) (rate : Z)
  (s : ifstream) (w : png_struct) :
  ready e s w ->
  setup e png0 rate
  = Ok (frame_at (replies s) (failbit s) (array_bytes e) 0 png0
                 (initial_info w rate)).
Proof.
  intros (Hin & Hrs & Hri & Hw & Hout). unfold setup.
  rewrite Hin, Hrs, Hri, Hw, Hout. destruct s. reflexivity.
Qed.

Lemma setup_answers {D : Type} (e : environment) (png0 : D) (rate : Z)
  (f : frame D) :
  setup e png0 rate = Ok f ->
  exists s w, ready e s w.
Proof.
  unfold setup, ready.
  destruct (input_file e) as [s|]; [|discriminate].
  destruct (read_struct_ok e); [|discriminate].
  destruct (read_info_ok e); [|discriminate].
  destruct (write_struct e) as [w|]; [|discriminate].
  destruct (output_file_ok e); [|discriminate].
  intros _. exists s, w. auto.
Qed.

(** X9: a run of [main] with four arguments, a positive sample rate and an
    environment that lets [coPng] reach its loop is the transcoding told
    over the answers of the source: each answer, cut to the array, goes
    through the decoder once, in order and without the bytes of an earlier
    chunk, whether or not the coroutine suspended in between; it stops at
    the first empty answer, at the end of the image, or where something
    throws. *)
Theorem main_transcodes_the_answers {D : Type}
  (feed : D -> list byte -> D * list event) (bufSize : Z) (fuel m n : nat)
  (argc sampleRate : Z) (e : environment) (png0 : D)
  (s : ifstream) (w : png_struct) :
  0 < bufSize < 2 ^ 64 ->
  argc = 4 -> 0 < sampleRate < 2 ^ 31 ->
  ready e s w ->
  Z.of_nat (length (array_bytes e)) = bufSize ->
  (S (length (replies s)) < m)%nat -> (length (replies s) < n)%nat ->
  main feed bufSize fuel m n argc sampleRate e png0 =
  match transcode feed bufSize fuel (replies s) (failbit s) (array_bytes e)
                  png0 (initial_info w sampleRate) with
  | Done f => Returned 0 f
  | Terminated err out => Aborted err out
  | _ => Unfinished
  end.
Proof.
  intros Hsize -> Hrate Hready Hbuf Hm Hn. unfold main.
  cbn [Z.eqb Pos.eqb negb].
  replace (sampleRate <=? 0) with false by (symmetry; apply Z.leb_gt; lia).
  rewrite to_unsigned_small by lia.
  destruct m as [|m]; [lia|].
  cbn [drive resume]. rewrite (setup_ready e png0 sampleRate s w Hready).
  rewrite drive_run_transcode; try assumption; try lia.
  reflexivity.
Qed.

(** X10: [main]'s loop ends.  Within two resumptions more than the source
    has answers the coroutine is done or has terminated, whatever the
    environment, the decoder and the bytes; only the fuel of a sampling loop
    can cut the run short. *)
Theorem driver_loop_ends {D : Type}
  (feed : D -> list byte -> D * list event) (bufSize : Z) (fuel m n : nat)
  (e : environment) (png0 : D) (rate : Z) :
  0 < bufSize < 2 ^ 64 ->
  Z.of_nat (length (array_bytes e)) = bufSize ->
  (0 < m)%nat ->
  (forall s, input_file e = Some s ->
             (S (length (replies s)) < m)%nat /\ (length (replies s) < n)%nat) ->
  match drive feed bufSize fuel m n (Created e png0 rate) with
  | Done _ | Terminated _ _ | RowCut => True
  | _ => False
  end.
Proof.
  intros Hsize Hbuf Hpos Hfuel.
  destruct m as [|m]; [lia|]. cbn [drive resume].
  destruct (setup e png0 rate) as [f| |] eqn:Hsetup.
  - destruct (setup_answers e png0 rate f Hsetup) as (s & w & Hready).
    rewrite (setup_ready e png0 rate s w Hready) in Hsetup.
    injection Hsetup as <-.
    destruct (Hfuel s (proj1 Hready)) as [Hm Hn].
    rewrite drive_run_transcode; try assumption; try lia.
    pose proof (transcode_settles D feed bufSize fuel (replies s) (failbit s)
                  (array_bytes e) png0 (initial_info w rate)) as H.
    destruct (transcode feed bufSize fuel (replies s) (failbit s)
                (array_bytes e) png0 (initial_info w rate)) as [| | |? [?|]| |];
      tauto.
  - rewrite drive_settled; exact I.
  - unfold setup in Hsetup.
    destruct (input_file e); [|discriminate].
    destruct (negb (read_struct_ok e)); [discriminate|].
    destruct (negb (read_info_ok e)); [discriminate|].
    destruct (write_struct e); [|discriminate].
    destruct (negb (output_file_ok e)); discriminate.
Qed.

(** What follows in the source is carried along unread by a chunk going
    through. *)
Lemma leave_chunk_through {D : Type} (feed : D -> list byte -> D * list event)
  (fuel : nat) (q rest : list reply) (failed : bool) (buf : list byte)
  (total : Z) (d : D) (u : userInfo) (span : list byte)
  (next : list byte -> D -> userInfo -> coroutine D) :
  leave rest
    (chunk_through feed fuel {| replies := q; failbit := failed |} buf total
       d u span next)
  = chunk_through feed fuel {| replies := q ++ rest; failbit := failed |} buf
      total d u span (fun b d' u' => leave rest (next b d' u')).
Proof.
  unfold chunk_through.
  destruct (snd (png_process_data fuel u (snd (feed d span)))); try reflexivity.
  destruct (loop_ends _ span); reflexivity.
Qed.

(** The transcoding does not look beyond an empty answer. *)
Lemma transcode_leaves {D : Type} (feed : D -> list byte -> D * list event)
  (bufSize : Z) (fuel : nat) (r : reply) (rest : list reply)
  (pre : list reply) :
  take (Z.to_nat bufSize) (got r) = [] ->
  forall (failed : bool) (buf : list byte) (d : D) (u : userInfo),
    transcode feed bufSize fuel (pre ++ r :: rest) failed buf d u
    = leave rest (transcode feed bufSize fuel (pre ++ [r]) failed buf d u).
Proof.
  intros Hnone.
  induction pre as [|p pre IH]; intros failed buf d u.
  - cbn [app transcode]. rewrite Hnone.
    rewrite leave_chunk_through. cbn [app].
    apply chunk_through_empty.
  - cbn [app transcode].
    destruct (take (Z.to_nat bufSize) (got p)) as [|b data].
    + rewrite leave_chunk_through.
      replace ((pre ++ [r]) ++ rest) with (pre ++ r :: rest)
        by (now rewrite <- app_assoc).
      apply chunk_through_empty.
    + destruct (failed || fails p); [reflexivity|].
      rewrite leave_chunk_through.
      replace ((pre ++ [r]) ++ rest) with (pre ++ r :: rest)
        by (now rewrite <- app_assoc).
      apply chunk_through_next. intros d' u'. apply IH.
Qed.

(** X11: an empty answer of the source ends the transcoding at once,
    wherever it comes in the stream and also when the source has more to
    give later.  At the head of any iteration, whatever the decoder and the
    user state have seen before, the decoder gets the empty span and nothing
    else, and the coroutine is done, or terminated by what a callback throws
    on the events of that span.  And a run on a source that has answers
    after an empty one is the run on the source without them, with those
    answers left unread. *)
Theorem empty_read_ends_the_transcoding {D : Type}
  (feed : D -> list byte -> D * list event) (bufSize : Z) (fuel m n k : nat)
  (pre : list reply) (r : reply) (rest : list reply)
  (failed : bool) (buf : list byte) (d : D) (u : userInfo) :
  0 < bufSize < 2 ^ 64 ->
  Z.of_nat (length buf) = bufSize ->
  got r = [] ->
  (length (pre ++ r :: rest) < m)%nat ->
  (length (pre ++ r :: rest) < n)%nat ->
  (length (pre ++ r :: rest) < k)%nat ->
  let fed := feed d [] in
  let processed := png_process_data fuel u (snd fed) in
  drive feed bufSize fuel m n
    (run feed bufSize fuel k (frame_at (r :: rest) failed buf 0 d u))
  = match snd processed with
    | Ok _ =>
        Done {| imageReader :=
                  {| imageStream := {| replies := rest;
                                       failbit := failed || fails r |};
                     imageBuffer := buf; totalRead := 0 |};
                png_ptr := fst fed; user := fst processed |}
    | Raise e => Terminated e (Some (sunk (fst processed)))
    | OutOfFuel => RowCut
    end /\
  drive feed bufSize fuel m n
    (run feed bufSize fuel k (frame_at (pre ++ r :: rest) failed buf 0 d u))
  = leave rest
      (drive feed bufSize fuel m n
         (run feed bufSize fuel k (frame_at (pre ++ [r]) failed buf 0 d u))).
Proof.
  intros Hsize Hbuf Hgot Hm Hn Hk fed processed.
  assert (Hnone : take (Z.to_nat bufSize) (got r) = [])
    by (rewrite Hgot; apply take_nil).
  rewrite !length_app in Hm, Hn, Hk. cbn [length] in Hm, Hn, Hk.
  split.
  - destruct k as [|k]; [lia|]. cbn [run].
    rewrite (co_await_empty_reply D bufSize Hsize) by exact Hnone.
    rewrite (finish_chunk D feed fuel _ _ _ _ _ _ _ []) by reflexivity.
    unfold chunk_through. fold fed. fold processed.
    unfold loop_ends. cbn [length Z.of_nat Z.eqb]. rewrite orb_true_r.
    destruct (snd processed); now apply drive_settled.
  - rewrite !(drive_run_transcode D feed bufSize fuel Hsize);
      try assumption; rewrite ?length_app; cbn [length]; try lia.
    now apply transcode_leaves.
Qed.

(** X12: once the callbacks have seen the end of the image the transcoding
    stops: when the first chunk brings the decoder to the end event, the
    coroutine is done after it and the later answers of the source are
    never read. *)
Theorem end_of_image_stops_reading {D : Type}
  (feed : D -> list byte -> D * list event) (bufSize : Z) (fuel m n : nat)
  (e : environment) (png0 : D) (rate : Z)
  (s : ifstream) (w : png_struct) (r : reply) (rest : list reply) :
  0 < bufSize < 2 ^ 64 ->
  ready e s w ->
  Z.of_nat (length (array_bytes e)) = bufSize ->
  replies s = r :: rest ->
  let data := take (Z.to_nat bufSize) (got r) in
  data <> [] -> failbit s || fails r = false ->
  (2 <= m)%nat -> (1 <= n)%nat ->
  let fed := feed png0 data in
  let processed := png_process_data fuel (initial_info w rate) (snd fed) in
  snd processed = Ok tt -> isDone (fst processed) = true ->
  drive feed bufSize fuel m n (Created e png0 rate)
  = Done {| imageReader :=
              {| imageStream := {| replies := rest; failbit := false |};
                 imageBuffer := blit (array_bytes e) 0 data;
                 totalRead := Z.of_nat (length data) |};
            png_ptr := fst fed; user := fst processed |}.
Proof.
  intros Hsize Hready Hbuf Hrs data Hsome Hgood Hm Hn fed processed Hok Hdone.
  destruct m as [|[|m]]; try lia. destruct n as [|n]; [lia|].
  cbn [drive resume]. rewrite (setup_ready e png0 rate s w Hready), Hrs.
  cbn [run].
  pose proof (co_await_reply D bufSize Hsize r rest (failbit s)
                (array_bytes e) png0 (initial_info w rate)) as Hco.
  cbv zeta in Hco. fold data in Hco. rewrite Hco by exact Hsome. clear Hco.
  rewrite Hgood.
  assert (Hlen : Z.of_nat (length data) <= bufSize)
    by (subst data; rewrite length_take; lia).
  assert (Hspan : take (Z.to_nat (Z.of_nat (length data)))
                       (blit (array_bytes e) 0 data) = data).
  { rewrite Nat2Z.id. exact (take_blit (array_bytes e) 0 data ltac:(lia)). }
  assert (Hthrough : forall next,
    chunk_through feed fuel {| replies := rest; failbit := false |}
      (blit (array_bytes e) 0 data) (Z.of_nat (length data)) png0
      (initial_info w rate) data next
    = Done {| imageReader :=
                {| imageStream := {| replies := rest; failbit := false |};
                   imageBuffer := blit (array_bytes e) 0 data;
                   totalRead := Z.of_nat (length data) |};
              png_ptr := fst fed; user := fst processed |}).
  { intros next. unfold chunk_through. fold fed. fold processed.
    rewrite Hok. unfold loop_ends. rewrite Hdone. reflexivity. }
  destruct (negb (Z.of_nat (length data) =? bufSize)).
  - cbn [drive resume].
    rewrite (finish_chunk D feed fuel _ _ _ _ _ _ _ data) by exact Hspan.
    rewrite Hthrough. first [reflexivity | now apply drive_settled].
  - rewrite (finish_chunk D feed fuel _ _ _ _ _ _ _ data) by exact Hspan.
    rewrite Hthrough. first [reflexivity | now apply drive_settled].
Qed.

(** X13: [main] opens the output file, which truncates it, only when it was
    given four arguments and a positive sample rate, the input file could be
    opened and the three libpng structs could be created. *)
Theorem output_opened_only_after_setup {D : Type}
  (feed : D -> list byte -> D * list event) (bufSize : Z) (fuel m n : nat)
  (argc sampleRate : Z) (e : environment) (png0 : D) :
  output_opened (main feed bufSize fuel m n argc sampleRate e png0) = true ->
  argc = 4 /\ 0 < sampleRate /\
  exists s w, ready e s w.
Proof.
  unfold main.
  destruct (argc =? 4) eqn:Ha; cbn [negb]; [|discriminate].
  destruct (sampleRate <=? 0) eqn:Hs; [discriminate|].
  apply Z.eqb_eq in Ha. apply Z.leb_gt in Hs.
  intros H. split; [exact Ha|]. split; [exact Hs|].
  destruct m as [|m]; [discriminate H|].
  cbn [drive resume] in H.
  destruct (setup e png0 (to_unsigned sampleRate)) as [f|err|] eqn:Hsetup.
  - exact (setup_answers e png0 _ f Hsetup).
  - rewrite drive_settled in H by exact I. discriminate H.
  - rewrite drive_settled in H by exact I. discriminate H.
Qed.

(** ** The further properties at concrete inputs *)

(** The 3-byte row at sample rate 2. *)
Lemma row_loop_packs_sampled_pixels_witness :
  exists (row' : list byte) (writePos : Z),
    row_loop 4 exact_fit_info exact_fit_row 0 0 = Ok (row', writePos) /\
    length row' = length exact_fit_row /\
    forall k y : Z,
      0 <= k -> 0 <= y < channels exact_fit_info ->
      row' !! Z.to_nat (k * channels exact_fit_info + y)
      = if k * stride exact_fit_info + channels exact_fit_info
           <? rowWidth exact_fit_info
        then exact_fit_row !! Z.to_nat (k * stride exact_fit_info + y)
        else exact_fit_row !! Z.to_nat (k * channels exact_fit_info + y).
Proof.
  apply (row_loop_packs_sampled_pixels 4 exact_fit_info exact_fit_row);
    [unfold ctx_ok; cbn; lia|reflexivity|cbn; lia].
Defined.

(** The rows of the 8 by 8 scenario after its header. *)
Lemma sink_stays_flushed_witness :
  synced false (sunk scenario_info) = true /\
  synced false
    (sunk (fst (png_process_data 9 scenario_info (row_events scenario_rows))))
  = true.
Proof.
  split; [reflexivity|].
  apply (sink_stays_flushed 9 scenario_info (row_events scenario_rows)).
  reflexivity.
Defined.

(** The 8 by 8 header at sample rate 2. *)
Lemma written_header_is_not_empty_witness :
  exists out : IHDR,
    sunk scenario_info
    = sunk (initial_info fresh_writer 2) ++ [WInfo out; WFlush] /\
    1 <= width out <= 8 /\ 1 <= height out <= 8.
Proof.
  destruct (written_header_is_not_empty (initial_info fresh_writer 2)
              scenario_info scenario_header)
    as (out & Hsink & Hw & Hh & _); [cbn; lia|reflexivity|].
  exists out. auto.
Defined.

(** Three rows at sample rate 2: two rows written, one declared. *)
Lemma whole_image_rows_and_header_witness :
  exists (info' : userInfo) (out : IHDR),
    png_process_data 4 (initial_info fresh_writer 2)
      (image_events small_header (rows_upto 3 (fun _ => exact_fit_row)))
    = (info', Ok tt) /\
    isDone info' = true /\
    headers_of (sunk info') = [] ++ [out] /\
    height out = 3 / 2 /\
    Z.of_nat (length (rows_of (sunk info'))) = 0 + (3 + 2 - 1) / 2 /\
    ((3 + 2 - 1) / 2 = height out <-> 3 mod 2 = 0).
Proof.
  apply (whole_image_rows_and_header 4 (initial_info fresh_writer 2)
           small_header 3 (fun _ => exact_fit_row)).
  - reflexivity.
  - reflexivity.
  - cbn; lia.
  - cbn; lia.
  - cbn; lia.
  - cbn; lia.
  - cbn; lia.
  - cbn; lia.
  - intros n. reflexivity.
Defined.

(** A reader of four bytes holding one, whose source has two more. *)
Lemma await_suspend_keeps_reader_witness :
  await_suspend 4 partial_reader = Raise IOReadError \/
  exists (flag : bool) (r' : Reader),
    await_suspend 4 partial_reader = Ok (flag, r') /\
    reader_ok 4 r' /\
    totalRead partial_reader <= totalRead r' /\
    take (Z.to_nat (totalRead partial_reader)) (imageBuffer r')
    = take (Z.to_nat (totalRead partial_reader)) (imageBuffer partial_reader) /\
    (flag = true -> totalRead partial_reader < totalRead r' < 4).
Proof.
  apply (await_suspend_keeps_reader 4 partial_reader);
    [unfold reader_ok; cbn; lia|cbn; lia].
Defined.

Lemma ready_environment_of (s : ifstream) :
  ready (environment_of s) s fresh_writer.
Proof. unfold ready. cbn. auto. Defined.

(** The halting source through the ending decoder, at sample rate 2. *)
Lemma main_transcodes_the_answers_witness :
  main ending_decoder 4 9 5 4 4 2 (environment_of halting_source) tt =
  match transcode ending_decoder 4 9 (replies halting_source)
                  (failbit halting_source)
                  (array_bytes (environment_of halting_source)) tt
                  (initial_info fresh_writer 2) with
  | Done f => Returned 0 f
  | Terminated err out => Aborted err out
  | _ => Unfinished
  end.
Proof.
  apply (main_transcodes_the_answers ending_decoder 4 9 5 4 4 2
           (environment_of halting_source) tt halting_source fresh_writer).
  - lia.
  - reflexivity.
  - lia.
  - apply ready_environment_of.
  - reflexivity.
  - cbn; lia.
  - cbn; lia.
Defined.

Lemma driver_loop_ends_witness :
  match drive ending_decoder 4 9 5 4
              (Created (environment_of halting_source) tt 2) with
  | Done _ | Terminated _ _ | RowCut => True
  | _ => False
  end.
Proof.
  apply (driver_loop_ends ending_decoder 4 9 5 4
           (environment_of halting_source) tt 2).
  - lia.
  - reflexivity.
  - lia.
  - intros s [= <-]. cbn. lia.
Defined.

(** The halting source through the quiet decoder: its third answer is
    never read. *)
Lemma empty_read_ends_the_transcoding_witness :
  drive quiet_decoder 4 9 4 4
    (run quiet_decoder 4 9 4
       (frame_at (replies halting_source) false empty_buffer 0 tt
                 (initial_info fresh_writer 2)))
  = leave [{| got := [Byte.x03]; fails := false |}]
      (drive quiet_decoder 4 9 4 4
         (run quiet_decoder 4 9 4
            (frame_at [{| got := [Byte.x01; Byte.x02]; fails := false |};
                       {| got := []; fails := false |}]
                      false empty_buffer 0 tt (initial_info fresh_writer 2)))).
Proof.
  exact (proj2 (empty_read_ends_the_transcoding quiet_decoder 4 9 4 4 4
                  [{| got := [Byte.x01; Byte.x02]; fails := false |}]
                  {| got := []; fails := false |}
                  [{| got := [Byte.x03]; fails := false |}]
                  false empty_buffer tt (initial_info fresh_writer 2)
                  ltac:(lia) eq_refl eq_refl
                  ltac:(cbn; lia) ltac:(cbn; lia) ltac:(cbn; lia))).
Defined.

(** The halting source: the end comes with its first chunk. *)
Lemma end_of_image_stops_reading_witness :
  drive ending_decoder 4 9 2 1 (Created (environment_of halting_source) tt 2)
  = Done {| imageReader :=
              {| imageStream :=
                   {| replies := [{| got := []; fails := false |};
                                  {| got := [Byte.x03]; fails := false |}];
                      failbit := false |};
                 imageBuffer := [Byte.x01; Byte.x02; Byte.x00; Byte.x00];
                 totalRead := 2 |};
            png_ptr := tt;
            user := {| isDone := true;
                       png_write_ptr := {| sink := [WEnd; WFlush];
                                           has_memory := true |};
                       rowWidth := 0; channels := 1; sampleRate := 2 |} |}.
Proof.
  apply (end_of_image_stops_reading ending_decoder 4 9 2 1
           (environment_of halting_source) tt 2 halting_source fresh_writer
           {| got := [Byte.x01; Byte.x02]; fails := false |}
           [{| got := []; fails := false |};
            {| got := [Byte.x03]; fails := false |}]).
  - lia.
  - apply ready_environment_of.
  - reflexivity.
  - reflexivity.
  - discriminate.
  - reflexivity.
  - lia.
  - lia.
  - reflexivity.
  - reflexivity.
Defined.

Lemma output_opened_only_after_setup_witness :
  4 = 4 /\ 0 < 2 /\
  exists s w, ready (environment_of halting_source) s w.
Proof.
  apply (output_opened_only_after_setup ending_decoder 4 9 5 4 4 2
           (environment_of halting_source) tt).
  vm_compute. reflexivity.
Defined.
